(** * LZ4 block codec and frame layer: a shallow embedding

    The Go package [lz4] (block compressor, block decompressor, frame
    header codec, streaming [Writer] and [Reader]) is embedded as Rocq
    functions.  Go [int] and [uint32] values are integers in [Z] with the
    32-bit wrap-around written out, byte slices are [list byte], and an
    index or slice expression that is out of range is the outcome
    [Panic], as the Go runtime has it. *)

From Stdlib Require Import ZArith Lia List Bool.
From Stdlib Require Import Strings.String Strings.Byte.
From stdpp Require Import base list.

Local Open Scope Z_scope.

(** ** Outcomes of Go code *)

(** A Go function either returns, or panics (index out of range).  The
    loops of the source that are not bounded [for i] loops are embedded
    with a fuel argument; [Timeout] is the outcome of a loop that ran out
    of it. *)
Inductive run (A : Type) : Type :=
| Ok (a : A)
| Panic
| Timeout.

Arguments Ok {A} a.
Arguments Panic {A}.
Arguments Timeout {A}.

#[global] Instance run_ret : MRet run := fun A a => Ok a.

#[global] Instance run_bind : MBind run := fun A B k m =>
  match m with
  | Ok a => k a
  | Panic => Panic
  | Timeout => Timeout
  end.

(** The error values of the package and of [io]; [ErrMsg] is an
    [errors.New] made at the place it is returned. *)
Inductive error : Type :=
| ErrBlockTooLarge
| ErrCorrupted
| EOF
| ErrUnexpectedEOF
| ErrMsg (msg : string).

(** ** Bytes, integers and slices *)

Definition byte_of_Z (z : Z) : byte :=
  match Byte.of_N (Z.to_N (z mod 256)) with
  | Some b => b
  | None => x00
  end.

Definition Z_of_byte (b : byte) : Z := Z.of_N (Byte.to_N b).

Definition u32 (z : Z) : Z := z mod 4294967296.

Definition u8 (z : Z) : Z := z mod 256.

Definition len {A : Type} (l : list A) : Z := Z.of_nat (length l).

(** [s[i]]: out of range, that is [i < 0] or no element at [i], panics. *)
Definition index {A : Type} (s : list A) (i : Z) : run A :=
  if i <? 0 then Panic
  else match s !! Z.to_nat i with
       | Some a => Ok a
       | None => Panic
       end.

(** [s[i] = v] *)
Definition store {A : Type} (s : list A) (i : Z) (v : A) : run (list A) :=
  if i <? 0 then Panic
  else match s !! Z.to_nat i with
       | Some _ => Ok (<[Z.to_nat i := v]> s)
       | None => Panic
       end.

(** [s[lo:hi]] *)
Definition slice {A : Type} (s : list A) (lo hi : Z) : run (list A) :=
  if (0 <=? lo) && (lo <=? hi) && (hi <=? len s)
  then Ok (take (Z.to_nat (hi - lo)) (drop (Z.to_nat lo) s))
  else Panic.

(** [s[lo:]] *)
Definition slice_from {A : Type} (s : list A) (lo : Z) : run (list A) :=
  slice s lo (len s).

(** [copy(dst[at:], data)]: the slice expression panics when [at] is
    beyond [len(dst)]; [copy] itself moves [min(len(dst)-at, len(data))]
    elements. *)
Definition copy_at {A : Type} (dst : list A) (at_ : Z) (data : list A) : run (list A) :=
  if (0 <=? at_) && (at_ <=? len dst) then
    let n := Nat.min (length dst - Z.to_nat at_) (length data) in
    Ok (take (Z.to_nat at_) dst ++ take n data ++ drop (Z.to_nat at_ + n) dst)
  else Panic.

(** [binary.LittleEndian.Uint16(b)], [Uint32(b)], [Uint64(b)] and
    [PutUint32] *)
Definition le_uint16 (b : list byte) : run Z :=
  b0 ← index b 0; b1 ← index b 1;
  Ok (Z.lor (Z_of_byte b0) (Z.shiftl (Z_of_byte b1) 8)).

Definition le_uint32 (b : list byte) : run Z :=
  b0 ← index b 0; b1 ← index b 1; b2 ← index b 2; b3 ← index b 3;
  Ok (Z.lor (Z.lor (Z.lor (Z_of_byte b0) (Z.shiftl (Z_of_byte b1) 8))
                   (Z.shiftl (Z_of_byte b2) 16))
            (Z.shiftl (Z_of_byte b3) 24)).

Definition le_uint64 (b : list byte) : run Z :=
  lo ← le_uint32 b;
  rest ← slice_from b 4;
  hi ← le_uint32 rest;
  Ok (Z.lor lo (Z.shiftl hi 32)).

Definition le_put_uint32 (v : Z) : list byte :=
  [byte_of_Z v; byte_of_Z (Z.shiftr v 8);
   byte_of_Z (Z.shiftr v 16); byte_of_Z (Z.shiftr v 24)].

(** ** The xxHash32 digest

    [getHeaderChecksum] calls the package
    [github.com/pierrec/xxHash/xxHash32], which is an import of the
    repository and not part of it. *)

Definition prime32_1 : Z := 2654435761.
Definition prime32_2 : Z := 2246822519.
Definition prime32_3 : Z := 3266489917.
Definition prime32_4 : Z := 668265263.
Definition prime32_5 : Z := 374761393.

Definition rotl32 (x r : Z) : Z :=
  Z.lor (u32 (Z.shiftl x r)) (Z.shiftr x (32 - r)).

Definition le32_of (b0 b1 b2 b3 : byte) : Z :=
  Z.lor (Z.lor (Z.lor (Z_of_byte b0) (Z.shiftl (Z_of_byte b1) 8))
               (Z.shiftl (Z_of_byte b2) 16))
        (Z.shiftl (Z_of_byte b3) 24).

Definition xxh_round (acc input : Z) : Z :=
  u32 (rotl32 (u32 (acc + input * prime32_2)) 13 * prime32_1).

Fixpoint xxh_stripes (v1 v2 v3 v4 : Z) (data : list byte)
  : Z * Z * Z * Z * list byte :=
  match data with
  | a0 :: a1 :: a2 :: a3 :: b0 :: b1 :: b2 :: b3
    :: c0 :: c1 :: c2 :: c3 :: d0 :: d1 :: d2 :: d3 :: rest =>
      xxh_stripes (xxh_round v1 (le32_of a0 a1 a2 a3))
                  (xxh_round v2 (le32_of b0 b1 b2 b3))
                  (xxh_round v3 (le32_of c0 c1 c2 c3))
                  (xxh_round v4 (le32_of d0 d1 d2 d3)) rest
  | _ => (v1, v2, v3, v4, data)
  end.

Fixpoint xxh_tail (h : Z) (data : list byte) : Z :=
  match data with
  | a0 :: a1 :: a2 :: a3 :: rest =>
      xxh_tail (u32 (rotl32 (u32 (h + le32_of a0 a1 a2 a3 * prime32_3)) 17
                     * prime32_4)) rest
  | _ =>
      fold_left
        (fun acc b => u32 (rotl32 (u32 (acc + Z_of_byte b * prime32_5)) 11
                           * prime32_1))
        data h
  end.

Definition xxh_avalanche (h : Z) : Z :=
  let h := Z.lxor h (Z.shiftr h 15) in
  let h := u32 (h * prime32_2) in
  let h := Z.lxor h (Z.shiftr h 13) in
  let h := u32 (h * prime32_3) in
  Z.lxor h (Z.shiftr h 16).

(** Modelled from the spec: the digest of the imported xxHash32 package
    ([New(seed)], [Write], [Sum32]) is not under the source tree; the
    spec names it "xxhash32 ... at seed 0", and the definition is the
    XXH32 algorithm of that name. *)
Definition xxHash32_Sum32 (seed : Z) (data : list byte) : Z :=
  let h :=
    if 16 <=? len data then
      let '(v1, v2, v3, v4, _) :=
        xxh_stripes (u32 (seed + prime32_1 + prime32_2)) (u32 (seed + prime32_2))
                    (u32 seed) (u32 (seed - prime32_1)) data in
      u32 (rotl32 v1 1 + rotl32 v2 7 + rotl32 v3 12 + rotl32 v4 18)
    else u32 (seed + prime32_5) in
  let tail :=
    if 16 <=? len data then
      let '(_, _, _, _, rest) := xxh_stripes 0 0 0 0 data in rest
    else data in
  xxh_avalanche (xxh_tail (u32 (h + len data)) tail).

(** ** Frame header (the frame codec file) *)

Definition magic : Z := 0x184D2204.
Definition endMark : Z := 0x00000000.
Definition flgByte : Z := 0x60.
Definition bdType : Z := 0x70.

Definition getHeaderChecksum (frameHeader : list byte) : byte :=
  byte_of_Z (Z.land (Z.shiftr (xxHash32_Sum32 0 frameHeader) 8) 0xFF).

(** An [io.Writer] is modelled as an in-memory sink: the bytes written
    so far.  Its [Write] never fails. *)
Definition sink := list byte.

Definition WriteFrameHeader (w : sink) : sink :=
  let frameHeader := le_put_uint32 magic ++ [byte_of_Z flgByte; byte_of_Z bdType] in
  let frameHeader := frameHeader ++ [getHeaderChecksum (drop 4 frameHeader)] in
  w ++ frameHeader.

Definition WriteFrameEndMark (w : sink) : sink :=
  w ++ le_put_uint32 endMark.

(** ** Block compressor *)

Definition minMatchLength : Z := 4.
Definition maxMatchLength : Z := 0xFFFF.
Definition maxOffset : Z := 0xFFFF.
Definition hashLog : Z := 16.
Definition hashSize : Z := Z.shiftl 1 hashLog.
Definition hashShift : Z := 32 - hashLog.
Definition defaultBlockSize : Z := 4 * 1024 * 1024.
Definition maxBlockSize : Z := 4 * 1024 * 1024.

(** The empty-slot sentinel of the hash table. *)
Definition emptySlot : Z := 0xFFFFFFFF.

Definition hashSequence (seq : Z) : Z :=
  Z.shiftr (u32 (seq * 2654435761)) hashShift.

(** What a Go function of type [(int, error)] that fills a buffer
    returns: the count, the error ([None] is [nil]) and the buffer as it
    left it. *)
Definition result : Type := Z * option error * list byte.

(** The local variables of [compressBlock] at the head of its scan loop,
    with the two slices it writes to. *)
Record cstate : Type := CState {
  srcPos : Z;
  anchor : Z;
  dstPos : Z;
  dstBuf : list byte;
  hashTable : list Z
}.

(** [for matchLen < maxLen && src[srcPos+matchLen] == src[int(ref)+matchLen]] *)
Fixpoint match_loop (fuel : nat) (src : list byte) (pos ref maxLen matchLen : Z)
  : run Z :=
  match fuel with
  | O => Timeout
  | S fuel' =>
      if matchLen <? maxLen then
        a ← index src (pos + matchLen);
        b ← index src (ref + matchLen);
        if Byte.eqb a b
        then match_loop fuel' src pos ref maxLen (matchLen + 1)
        else Ok matchLen
      else Ok matchLen
  end.

(** The scan of one position: hash the four bytes at [srcPos], swap the
    table cell, and measure the candidate.  [Some (ref, matchLen)] is a
    match the loop goes on to emit; [None] is either [continue]. *)
Definition find_match (src : list byte) (pos : Z) (table : list Z)
  : run (list Z * option (Z * Z)) :=
  let srcLen := len src in
  w ← slice_from src pos;
  seq ← le_uint32 w;
  let h := Z.land (hashSequence seq) (hashSize - 1) in
  ref ← index table h;
  table ← store table h (u32 pos);
  if (ref =? emptySlot) || (maxOffset <? u32 (u32 pos - ref)) then
    Ok (table, None)
  else
    let maxLen := srcLen - pos in
    let maxLen := if maxMatchLength <? maxLen then maxMatchLength else maxLen in
    matchLen ← match_loop (S (Z.to_nat maxLen)) src pos ref maxLen 0;
    if matchLen <? minMatchLength then Ok (table, None)
    else Ok (table, Some (ref, matchLen)).

(** [for remaining >= 255 { dst[dstPos] = 255; dstPos++; remaining -= 255 }] *)
Fixpoint put_length_loop (fuel : nat) (dst : list byte) (pos remaining : Z)
  : run (list byte * Z * Z) :=
  match fuel with
  | O => Timeout
  | S fuel' =>
      if 255 <=? remaining then
        dst ← store dst pos (byte_of_Z 255);
        put_length_loop fuel' dst (pos + 1) (remaining - 255)
      else Ok (dst, pos, remaining)
  end.

(** The length extension: the loop above, then [dst[dstPos] =
    byte(remaining); dstPos++]. *)
Definition put_length (dst : list byte) (pos remaining : Z)
  : run (list byte * Z) :=
  '(dst, pos, remaining) ←
    put_length_loop (S (Z.to_nat remaining)) dst pos remaining;
  dst ← store dst pos (byte_of_Z remaining);
  Ok (dst, pos + 1).

Definition literal_token (literalLen : Z) : Z :=
  if literalLen <? 15 then u8 (Z.shiftl literalLen 4) else 0xF0.

(** The rest of the loop body once a match is found: token, literal
    length, literals, offset, match length.  [inr] is a [return]. *)
Definition emit_sequence (src : list byte) (st : cstate) (ref matchLen : Z)
  : run (cstate + result) :=
  let dst := dstBuf st in
  let pos := dstPos st in
  let literalLen := srcPos st - anchor st in
  let token := literal_token literalLen in
  let matchLenCode := matchLen - minMatchLength in
  let token :=
    if matchLenCode <? 15 then Z.lor token (u8 matchLenCode)
    else Z.lor token 0x0F in
  if len dst <? pos + 1 + literalLen + 2 then
    Ok (inr (0, Some ErrBlockTooLarge, dst))
  else
    dst ← store dst pos (byte_of_Z token);
    let pos := pos + 1 in
    '(dst, pos) ←
      (if 15 <=? literalLen then put_length dst pos (literalLen - 15)
       else Ok (dst, pos));
    '(dst, pos) ←
      (if 0 <? literalLen then
         lits ← slice src (anchor st) (srcPos st);
         dst ← copy_at dst pos lits;
         Ok (dst, pos + literalLen)
       else Ok (dst, pos));
    let offset := srcPos st - ref in
    dst ← store dst pos (byte_of_Z offset);
    dst ← store dst (pos + 1) (byte_of_Z (Z.shiftr offset 8));
    let pos := pos + 2 in
    '(dst, pos) ←
      (if 15 <=? matchLenCode then put_length dst pos (matchLenCode - 15)
       else Ok (dst, pos));
    Ok (inl {| srcPos := srcPos st + matchLen;
               anchor := srcPos st + matchLen;
               dstPos := pos;
               dstBuf := dst;
               hashTable := hashTable st |}).

(** One iteration of the scan loop. *)
Definition scan_body (src : list byte) (st : cstate) : run (cstate + result) :=
  '(table, found) ← find_match src (srcPos st) (hashTable st);
  match found with
  | None =>
      Ok (inl {| srcPos := srcPos st + 1;
                 anchor := anchor st;
                 dstPos := dstPos st;
                 dstBuf := dstBuf st;
                 hashTable := table |})
  | Some (ref, matchLen) =>
      emit_sequence src
        {| srcPos := srcPos st; anchor := anchor st; dstPos := dstPos st;
           dstBuf := dstBuf st; hashTable := table |}
        ref matchLen
  end.

(** [for srcPos <= srcLen-minMatchLength { ... }] *)
Fixpoint scan_loop (fuel : nat) (src : list byte) (st : cstate)
  : run (cstate + result) :=
  match fuel with
  | O => Timeout
  | S fuel' =>
      if srcPos st <=? len src - minMatchLength then
        r ← scan_body src st;
        match r with
        | inl st' => scan_loop fuel' src st'
        | inr res => Ok (inr res)
        end
      else Ok (inl st)
  end.

(** The trailing literals-only sequence and the final [return]. *)
Definition emit_last (src : list byte) (st : cstate) : run result :=
  let srcLen := len src in
  let dst := dstBuf st in
  let pos := dstPos st in
  if anchor st <? srcLen then
    let literalLen := srcLen - anchor st in
    let token := literal_token literalLen in
    if len dst <? pos + 1 + literalLen then
      Ok (0, Some ErrBlockTooLarge, dst)
    else
      dst ← store dst pos (byte_of_Z token);
      let pos := pos + 1 in
      '(dst, pos) ←
        (if 15 <=? literalLen then put_length dst pos (literalLen - 15)
         else Ok (dst, pos));
      lits ← slice src (anchor st) srcLen;
      dst ← copy_at dst pos lits;
      Ok (pos + literalLen, None, dst)
  else Ok (pos, None, dst).

(** The state on entry to the scan loop: the table reset to the
    sentinel, the three positions at zero. *)
Definition scan_init (dst : list byte) (table : list Z) : cstate :=
  {| srcPos := 0; anchor := 0; dstPos := 0; dstBuf := dst;
     hashTable := replicate (length table) emptySlot |}.

Definition compressBlock (src dst : list byte) (table : list Z) : run result :=
  let srcLen := len src in
  if srcLen =? 0 then Ok (0, None, dst)
  else
    r ← scan_loop (S (length src)) src (scan_init dst table);
    match r with
    | inr res => Ok res
    | inl st => emit_last src st
    end.

(** ** Block decompressor *)

(** The length-extension loop of the decoder:
    [for { if srcPos >= srcLen { return io.ErrUnexpectedEOF }; b :=
    src[srcPos]; srcPos++; n += int(b); if b != 255 { break } }].
    [None] is the early return. *)
Fixpoint read_length (fuel : nat) (src : list byte) (pos n : Z)
  : run (option (Z * Z)) :=
  match fuel with
  | O => Timeout
  | S fuel' =>
      if len src <=? pos then Ok None
      else
        b ← index src pos;
        let pos := pos + 1 in
        let n := n + Z_of_byte b in
        if negb (Z_of_byte b =? 255) then Ok (Some (pos, n))
        else read_length fuel' src pos n
  end.

(** [for i := 0; i < matchLen; i++ { dst[dstPos] = dst[ref+i]; dstPos++ }];
    [count] is the number of iterations left. *)
Fixpoint copy_bytes (count : nat) (dst : list byte) (pos ref i : Z)
  : run (list byte * Z) :=
  match count with
  | O => Ok (dst, pos)
  | S count' =>
      b ← index dst (ref + i);
      dst ← store dst pos b;
      copy_bytes count' dst (pos + 1) ref (i + 1)
  end.

(** The local variables of [decompressBlock] at the head of its loop. *)
Record dstate : Type := DState {
  d_srcPos : Z;
  d_dstPos : Z;
  d_dst : list byte
}.

(** First half of the loop body: token, literal length, literals.
    [inl (token, st)] goes on to the match; [inr] is a [return] (the
    [break] of the trailing sequence returns [dstPos, nil]). *)
Definition decode_literals (src : list byte) (st : dstate)
  : run (byte * dstate + result) :=
  let srcLen := len src in
  let dst := d_dst st in
  let dstLen := len dst in
  let dpos := d_dstPos st in
  let spos := d_srcPos st in
  if dstLen <=? dpos then Ok (inr (dpos, Some ErrBlockTooLarge, dst))
  else
    token ← index src spos;
    let spos := spos + 1 in
    let litLen := Z.shiftr (Z_of_byte token) 4 in
    r ← (if litLen =? 15 then read_length (S (length src)) src spos litLen
         else Ok (Some (spos, litLen)));
    match r with
    | None => Ok (inr (dpos, Some ErrUnexpectedEOF, dst))
    | Some (spos, litLen) =>
        if srcLen <? spos + litLen then
          Ok (inr (dpos, Some ErrUnexpectedEOF, dst))
        else if dstLen <? dpos + litLen then
          Ok (inr (dpos, Some ErrBlockTooLarge, dst))
        else
          '(dst, dpos, spos) ←
            (if 0 <? litLen then
               lits ← slice src spos (spos + litLen);
               dst ← copy_at dst dpos lits;
               Ok (dst, dpos + litLen, spos + litLen)
             else Ok (dst, dpos, spos));
          if srcLen <=? spos then Ok (inr (dpos, None, dst))
          else Ok (inl (token, {| d_srcPos := spos; d_dstPos := dpos;
                                  d_dst := dst |}))
    end.

(** Second half of the loop body: offset, match length, match copy. *)
Definition decode_match (src : list byte) (token : byte) (st : dstate)
  : run (dstate + result) :=
  let srcLen := len src in
  let dst := d_dst st in
  let dstLen := len dst in
  let dpos := d_dstPos st in
  let spos := d_srcPos st in
  if srcLen <? spos + 2 then Ok (inr (dpos, Some ErrUnexpectedEOF, dst))
  else
    w ← slice_from src spos;
    offset ← le_uint16 w;
    let spos := spos + 2 in
    if (offset =? 0) || (dpos <? offset) then
      Ok (inr (dpos, Some ErrCorrupted, dst))
    else
      let matchLen := Z.land (Z_of_byte token) 0x0F in
      r ← (if matchLen =? 15 then read_length (S (length src)) src spos matchLen
           else Ok (Some (spos, matchLen)));
      match r with
      | None => Ok (inr (dpos, Some ErrUnexpectedEOF, dst))
      | Some (spos, matchLen) =>
          let matchLen := matchLen + minMatchLength in
          if dstLen <? dpos + matchLen then
            Ok (inr (dpos, Some ErrBlockTooLarge, dst))
          else
            let ref := dpos - offset in
            if ref <? 0 then Ok (inr (dpos, Some ErrCorrupted, dst))
            else
              '(dst, dpos) ←
                (if matchLen <=? offset then
                   chunk ← slice dst ref (ref + matchLen);
                   dst ← copy_at dst dpos chunk;
                   Ok (dst, dpos + matchLen)
                 else copy_bytes (Z.to_nat matchLen) dst dpos ref 0);
              Ok (inl {| d_srcPos := spos; d_dstPos := dpos; d_dst := dst |})
      end.

Definition decode_sequence (src : list byte) (st : dstate)
  : run (dstate + result) :=
  r ← decode_literals src st;
  match r with
  | inr res => Ok (inr res)
  | inl (token, st') => decode_match src token st'
  end.

(** [for srcPos < srcLen { ... }] and the final [return dstPos, nil] *)
Fixpoint decode_loop (fuel : nat) (src : list byte) (st : dstate) : run result :=
  match fuel with
  | O => Timeout
  | S fuel' =>
      if d_srcPos st <? len src then
        r ← decode_sequence src st;
        match r with
        | inl st' => decode_loop fuel' src st'
        | inr res => Ok res
        end
      else Ok (d_dstPos st, None, d_dst st)
  end.

Definition decompressBlock (src dst : list byte) : run result :=
  decode_loop (S (length src)) src
    {| d_srcPos := 0; d_dstPos := 0; d_dst := dst |}.

(** ** Reading the frame header *)

(** An [io.Reader] is modelled as an in-memory source: the bytes not yet
    read.  [io.ReadFull(r, buf)] with [len(buf) = n] gives the next [n]
    bytes, [io.EOF] when there is none, and [io.ErrUnexpectedEOF] (having
    consumed what there was) when there are fewer than [n]. *)
Definition source := list byte.

Definition ReadFull (r : source) (n : Z) : source * (list byte + error) :=
  if n <=? 0 then (r, inl [])
  else if len r =? 0 then (r, inr EOF)
  else if len r <? n then ([], inr ErrUnexpectedEOF)
  else (drop (Z.to_nat n) r, inl (take (Z.to_nat n) r)).

Record DecodedFrameHeader : Type := {
  Magic : Z;
  Version : Z;
  BlocksIndependentFlag : bool;
  BlocksChecksumFlag : bool;
  ContentSizeFlag : bool;
  ContentChecksumFlag : bool;
  DictIDFlag : bool;
  ContentSize : Z;
  DictID : Z;
  BlockMaxSize : Z
}.

Definition flag (b mask : Z) : bool := negb (Z.land b mask =? 0).

Definition block_max_size (selector : Z) : option Z :=
  if selector =? 4 then Some (Z.shiftl 64 10)
  else if selector =? 5 then Some (Z.shiftl 256 10)
  else if selector =? 6 then Some (Z.shiftl 1 20)
  else if selector =? 7 then Some (Z.shiftl 4 20)
  else None.

Definition ReadFrameHeader (r : source)
  : run (source * (DecodedFrameHeader + error)) :=
  match ReadFull r 7 with
  | (r, inr err) => Ok (r, inr err)
  | (r, inl header) =>
      m ← slice header 0 4;
      magicNum ← le_uint32 m;
      if negb (magicNum =? magic) then Ok (r, inr ErrCorrupted)
      else
        flg ← index header 4;
        bd ← index header 5;
        let flg := Z_of_byte flg in
        let bd := Z_of_byte bd in
        let version := Z.land (Z.shiftr flg 6) 0x03 in
        if negb (version =? 1) then Ok (r, inr (ErrMsg "lz4: invalid version"))
        else
          let contentSizeFlag := flag flg 0x08 in
          let dictIDFlag := flag flg 0x01 in
          match block_max_size (Z.land (Z.shiftr bd 4) 0x0F) with
          | None => Ok (r, inr (ErrMsg "lz4: invalid block maximum size"))
          | Some blockMaxSize =>
              let mk cs di :=
                {| Magic := magicNum;
                   Version := version;
                   BlocksIndependentFlag := flag flg 0x20;
                   BlocksChecksumFlag := flag flg 0x10;
                   ContentSizeFlag := contentSizeFlag;
                   ContentChecksumFlag := flag flg 0x04;
                   DictIDFlag := dictIDFlag;
                   ContentSize := cs;
                   DictID := di;
                   BlockMaxSize := blockMaxSize |} in
              let step1 :=
                if contentSizeFlag then
                  match ReadFull r 8 with
                  | (r, inr err) => Ok (r, inr err)
                  | (r, inl b) => cs ← le_uint64 b; Ok (r, inl cs)
                  end
                else Ok (r, inl 0) in
              '(r, cs) ← step1;
              match cs with
              | inr err => Ok (r, inr err)
              | inl cs =>
                  if dictIDFlag then
                    match ReadFull r 4 with
                    | (r, inr err) => Ok (r, inr err)
                    | (r, inl b) => di ← le_uint32 b; Ok (r, inl (mk cs di))
                    end
                  else Ok (r, inl (mk cs 0))
              end
          end
  end.

(** ** Streaming writer *)

Record Writer : Type := {
  w_dst : sink;
  w_blockSize : Z;
  w_hashTable : list Z;
  w_headerWritten : bool
}.

Definition NewWriter (dst : sink) : Writer :=
  {| w_dst := dst;
     w_blockSize := defaultBlockSize;
     w_hashTable := replicate (Z.to_nat hashSize) 0;
     w_headerWritten := false |}.

Definition with_dst (w : Writer) (dst : sink) : Writer :=
  {| w_dst := dst; w_blockSize := w_blockSize w;
     w_hashTable := w_hashTable w; w_headerWritten := w_headerWritten w |}.

Definition write_header_once (w : Writer) : Writer :=
  if w_headerWritten w then w
  else {| w_dst := WriteFrameHeader (w_dst w); w_blockSize := w_blockSize w;
          w_hashTable := w_hashTable w; w_headerWritten := true |}.

(** [make([]byte, n)]; a negative [n] is a run-time panic. *)
Definition make_bytes (n : Z) : run (list byte) :=
  if n <? 0 then Panic else Ok (replicate (Z.to_nat n) x00).

(** [for len(p) > 0 { ... }] of [Write].  The hash table of the writer is
    overwritten with the sentinel at the start of every [compressBlock],
    so its content is not carried from one block to the next. *)
Fixpoint write_loop (fuel : nat) (w : Writer) (p : list byte) (totalWritten : Z)
  : run (Writer * Z * option error) :=
  match fuel with
  | O => Timeout
  | S fuel' =>
      if 0 <? len p then
        let chunkSize := w_blockSize w in
        let chunkSize := if len p <? chunkSize then len p else chunkSize in
        let worstCaseSize := chunkSize + Z.quot chunkSize 255 + 16 in
        compressed ← make_bytes worstCaseSize;
        chunk ← slice p 0 chunkSize;
        '(n, err, compressed) ← compressBlock chunk compressed (w_hashTable w);
        match err with
        | Some e => Ok (w, totalWritten, Some e)
        | None =>
            let dst := w_dst w ++ le_put_uint32 (u32 n) in
            payload ← slice compressed 0 n;
            let dst := dst ++ payload in
            p ← slice_from p chunkSize;
            write_loop fuel' (with_dst w dst) p (totalWritten + chunkSize)
        end
      else Ok (w, totalWritten, None)
  end.

Definition Writer_Write (w : Writer) (p : list byte)
  : run (Writer * Z * option error) :=
  write_loop (S (length p)) (write_header_once w) p 0.

Definition Writer_Close (w : Writer) : Writer :=
  let w := write_header_once w in
  with_dst w (WriteFrameEndMark (w_dst w)).

(** ** Streaming reader *)

(** [leftover] aliases the block it was cut from; that block is either a
    fresh allocation or, for an uncompressed block, the scratch buffer,
    which is not written again before the leftover is drained.  It is
    kept here as a value; [None] is the [nil] slice. *)
Record Reader : Type := {
  r_src : source;
  r_blockSize : Z;
  r_buffer : list byte;
  r_leftover : option (list byte);
  r_leftoverPos : Z;
  r_eof : bool;
  r_headerRead : bool
}.

Definition NewReader (src : source) : Reader :=
  {| r_src := src;
     r_blockSize := defaultBlockSize;
     r_buffer := replicate (Z.to_nat maxBlockSize) x00;
     r_leftover := None;
     r_leftoverPos := 0;
     r_eof := false;
     r_headerRead := false |}.

(** What [Read] returns, with the reader and the caller's buffer as it
    left them. *)
Definition read_result : Type := Reader * list byte * Z * option error.

Definition set_src (r : Reader) (src : source) : Reader :=
  {| r_src := src; r_blockSize := r_blockSize r; r_buffer := r_buffer r;
     r_leftover := r_leftover r; r_leftoverPos := r_leftoverPos r;
     r_eof := r_eof r; r_headerRead := r_headerRead r |}.

(** The header check at the start of [Read]: [Some err] is the error of
    an early [return 0, err]; the bytes [ReadFrameHeader] took are gone
    from the source either way. *)
Definition check_header (r : Reader) : run (Reader * option error) :=
  if r_headerRead r then Ok (r, None)
  else
    '(src, h) ← ReadFrameHeader (r_src r);
    let r := set_src r src in
    match h with
    | inr err => Ok (r, Some err)
    | inl header =>
        if negb (Version header =? 1) then
          Ok (r, Some (ErrMsg "invalid LZ4 version"))
        else if negb (BlocksIndependentFlag header) then
          Ok (r, Some (ErrMsg "blocks independent flag must be enabled"))
        else if BlocksChecksumFlag header then
          Ok (r, Some (ErrMsg "blocks checksum flag is not supported"))
        else if ContentSizeFlag header then
          Ok (r, Some (ErrMsg "content size flag is not supported"))
        else if DictIDFlag header then
          Ok (r, Some (ErrMsg "dict ID flag is not supported"))
        else if 0 <? ContentSize header then
          Ok (r, Some (ErrMsg "content size is not supported"))
        else if 0 <? DictID header then
          Ok (r, Some (ErrMsg "dict ID is not supported"))
        else
          Ok ({| r_src := r_src r; r_blockSize := r_blockSize r;
                 r_buffer := r_buffer r; r_leftover := r_leftover r;
                 r_leftoverPos := r_leftoverPos r; r_eof := r_eof r;
                 r_headerRead := true |}, None)
    end.

Definition set_eof (r : Reader) : Reader :=
  {| r_src := r_src r; r_blockSize := r_blockSize r; r_buffer := r_buffer r;
     r_leftover := r_leftover r; r_leftoverPos := r_leftoverPos r;
     r_eof := true; r_headerRead := r_headerRead r |}.

Definition set_leftover (r : Reader) (l : option (list byte)) (pos : Z) : Reader :=
  {| r_src := r_src r; r_blockSize := r_blockSize r; r_buffer := r_buffer r;
     r_leftover := l; r_leftoverPos := pos;
     r_eof := r_eof r; r_headerRead := r_headerRead r |}.

Definition set_buffer (r : Reader) (src : source) (buf : list byte) : Reader :=
  {| r_src := src; r_blockSize := r_blockSize r; r_buffer := buf;
     r_leftover := r_leftover r; r_leftoverPos := r_leftoverPos r;
     r_eof := r_eof r; r_headerRead := r_headerRead r |}.

(** The carry-over drain at the start of [Read]; the boolean is the
    early [return totalRead, nil]. *)
Definition drain_leftover (r : Reader) (p : list byte)
  : run (Reader * list byte * Z * bool) :=
  match r_leftover r with
  | Some leftover =>
      if r_leftoverPos r <? len leftover then
        let toCopy := len leftover - r_leftoverPos r in
        let toCopy := if len p <? toCopy then len p else toCopy in
        data ← slice leftover (r_leftoverPos r) (r_leftoverPos r + toCopy);
        p ← copy_at p 0 data;
        let pos := r_leftoverPos r + toCopy in
        let r := if len leftover <=? pos then set_leftover r None 0
                 else set_leftover r (Some leftover) pos in
        Ok (r, p, toCopy, len p <=? toCopy)
      else Ok (r, p, 0, false)
  | None => Ok (r, p, 0, false)
  end.

(** [for totalRead < len(p) && !r.eof { ... }] and the final
    [return totalRead, nil] *)
Fixpoint read_loop (fuel : nat) (r : Reader) (p : list byte) (totalRead : Z)
  : run read_result :=
  match fuel with
  | O => Timeout
  | S fuel' =>
      if (totalRead <? len p) && negb (r_eof r) then
        match ReadFull (r_src r) 4 with
        | (src, inr err) =>
            let r := set_src r src in
            match err with
            | EOF => if 0 <? totalRead then Ok (r, p, totalRead, None)
                     else Ok (r, p, totalRead, Some err)
            | _ => Ok (r, p, totalRead, Some err)
            end
        | (src, inl sizeBuf) =>
            let r := set_src r src in
            compressedSize ← le_uint32 sizeBuf;
            if compressedSize =? 0 then Ok (set_eof r, p, totalRead, None)
            else
              let uncompressed := negb (Z.land compressedSize 0x80000000 =? 0) in
              let compressedSize :=
                if uncompressed
                then Z.land compressedSize (Z.lnot 0x80000000)
                else compressedSize in
              if u32 (len (r_buffer r)) <? compressedSize then
                Ok (r, p, totalRead, Some ErrBlockTooLarge)
              else
                match ReadFull (r_src r) compressedSize with
                | (src, inr err) =>
                    Ok (set_src r src, p, totalRead, Some err)
                | (src, inl payload) =>
                    buf ← copy_at (r_buffer r) 0 payload;
                    let r := set_buffer r src buf in
                    input ← slice buf 0 compressedSize;
                    dec ←
                      (if uncompressed then Ok (inl input)
                       else
                         decompressed ← make_bytes (r_blockSize r);
                         '(n, err, decompressed) ←
                           decompressBlock input decompressed;
                         match err with
                         | Some e => Ok (inr e)
                         | None => d ← slice decompressed 0 n; Ok (inl d)
                         end);
                    match dec with
                    | inr e => Ok (r, p, totalRead, Some e)
                    | inl data =>
                        let remaining := len p - totalRead in
                        let toCopy :=
                          if remaining <? len data then remaining else len data in
                        lo ← (if remaining <? len data then
                                l ← slice_from data toCopy; Ok (Some l)
                              else Ok None);
                        let r := match lo with
                                 | Some l => set_leftover r (Some l) 0
                                 | None => r
                                 end in
                        chunk ← slice data 0 toCopy;
                        _ ← slice p totalRead (totalRead + toCopy);
                        p ← copy_at p totalRead chunk;
                        let totalRead := totalRead + toCopy in
                        if toCopy <? len data then Ok (r, p, totalRead, None)
                        else read_loop fuel' r p totalRead
                    end
                end
        end
      else Ok (r, p, totalRead, None)
  end.

Definition Reader_Read (r : Reader) (p : list byte) : run read_result :=
  if r_eof r then Ok (r, p, 0, Some EOF)
  else
    '(r, herr) ← check_header r;
    match herr with
    | Some err => Ok (r, p, 0, Some err)
    | None =>
        '(r, p, totalRead, done) ← drain_leftover r p;
        if (done : bool) then Ok (r, p, totalRead, None)
        else read_loop (S (length (r_src r))) r p totalRead
    end.

(** ** Stream endpoints *)

(** [src.Read(buf)] of an in-memory source: as many bytes as [buf] takes,
    and [(0, io.EOF)] once the source is empty. *)
Definition source_Read (r : source) (n : Z)
  : source * list byte * option error :=
  if len r =? 0 then (r, [], Some EOF)
  else
    let k := if len r <? n then len r else n in
    (drop (Z.to_nat k) r, take (Z.to_nat k) r, None).

Definition streamBufSize : Z := 64 * 1024.

Fixpoint compress_loop (fuel : nat) (src : source) (w : Writer)
  : run (Writer * option error) :=
  match fuel with
  | O => Timeout
  | S fuel' =>
      match source_Read src streamBufSize with
      | (src, data, err) =>
          r ← (if 0 <? len data then
                 '(w, _, werr) ← Writer_Write w data; Ok (w, werr)
               else Ok (w, None));
          match r with
          | (w, Some e) => Ok (w, Some e)
          | (w, None) =>
              match err with
              | Some EOF => Ok (w, None)
              | Some e => Ok (w, Some e)
              | None => compress_loop fuel' src w
              end
          end
      end
  end.

(** [CompressStream]: the deferred [Close] runs on every path. *)
Definition CompressStream (src : source) (dst : sink)
  : run (sink * option error) :=
  '(w, err) ← compress_loop (S (length src)) src (NewWriter dst);
  Ok (w_dst (Writer_Close w), err).

Fixpoint decompress_loop (fuel : nat) (r : Reader) (dst : sink)
  : run (sink * option error) :=
  match fuel with
  | O => Timeout
  | S fuel' =>
      buf ← make_bytes streamBufSize;
      '(r, buf, n, err) ← Reader_Read r buf;
      out ← (if 0 <? n then slice buf 0 n else Ok []);
      let dst := dst ++ out in
      match err with
      | Some EOF => Ok (dst, None)
      | Some e => Ok (dst, Some e)
      | None => decompress_loop fuel' r dst
      end
  end.

Definition DecompressStream (src : source) (dst : sink)
  : run (sink * option error) :=
  decompress_loop (2 + 65 * length src)%nat (NewReader src) dst.

Definition zeros (n : Z) : list byte := replicate (Z.to_nat n) x00.

(** ** The sequence stream as data

    The definitions below are not code of the package: they name the
    objects the theorems speak about (what a run of stores leaves in a
    buffer, the bytes of one sequence, what a list of sequences decodes
    to). *)

(** The buffer [dst] after [bs] was stored at [pos], [pos+1], ... *)
Definition write_at (dst : list byte) (pos : Z) (bs : list byte) : list byte :=
  take (Z.to_nat pos) dst ++ bs ++ drop (Z.to_nat pos + length bs) dst.

(** The bytes of a length extension: [remaining / 255] bytes [0xFF],
    then [remaining mod 255]. *)
Definition length_ext (remaining : Z) : list byte :=
  replicate (Z.to_nat (remaining / 255)) xff ++ [byte_of_Z (remaining mod 255)].

Definition opt_ext (n : Z) : list byte :=
  if 15 <=? n then length_ext (n - 15) else [].

Definition match_nibble (matchLenCode : Z) : Z :=
  if matchLenCode <? 15 then u8 matchLenCode else 0x0F.

(** One sequence with a match: its literals, offset and match length. *)
Record sequence : Type := Sequence {
  s_lits : list byte;
  s_offset : Z;
  s_matchLen : Z
}.

Definition encode_sequence (s : sequence) : list byte :=
  [byte_of_Z (Z.lor (literal_token (len (s_lits s)))
                    (match_nibble (s_matchLen s - minMatchLength)))]
  ++ opt_ext (len (s_lits s)) ++ s_lits s
  ++ [byte_of_Z (s_offset s); byte_of_Z (Z.shiftr (s_offset s) 8)]
  ++ opt_ext (s_matchLen s - minMatchLength).

(** The trailing literals-only sequence; nothing at all for no literals. *)
Definition encode_last (lits : list byte) : list byte :=
  match lits with
  | [] => []
  | _ => [byte_of_Z (literal_token (len lits))] ++ opt_ext (len lits) ++ lits
  end.

Definition encode_block (seqs : list sequence) (last : list byte) : list byte :=
  concat (map encode_sequence seqs) ++ encode_last last.

(** [count] more bytes, each a copy of the byte [off] places back. *)
Fixpoint lz_extend (count : nat) (out : list byte) (off : Z) : list byte :=
  match count with
  | O => out
  | S count' =>
      match out !! Z.to_nat (len out - off) with
      | Some b => lz_extend count' (out ++ [b]) off
      | None => out
      end
  end.

(** What a list of sequences decodes to, after [out]. *)
Fixpoint play (out : list byte) (seqs : list sequence) : list byte :=
  match seqs with
  | [] => out
  | s :: seqs' =>
      play (lz_extend (Z.to_nat (s_matchLen s)) (out ++ s_lits s) (s_offset s)) seqs'
  end.

(** Every offset reaches back into what is decoded by then, and every
    match has the minimum length. *)
Fixpoint valid_seqs (decoded : Z) (seqs : list sequence) : Prop :=
  match seqs with
  | [] => True
  | s :: seqs' =>
      1 <= s_offset s <= decoded + len (s_lits s)
      /\ s_offset s <= maxOffset
      /\ minMatchLength <= s_matchLen s
      /\ valid_seqs (decoded + len (s_lits s) + s_matchLen s) seqs'
  end.

(** The frame of the empty input: header, then end-mark. *)
Definition frame_empty : list byte :=
  [x04; x22; x4d; x18; x60; x70; x73; x00; x00; x00; x00].

(** The buffer [DecompressStream] reads into. *)
Definition stream_buf : list byte := replicate (Z.to_nat streamBufSize) x00.

(** The input blocks one [Write] call compresses, in order: [p] cut
    every [blockSize] bytes. *)
Fixpoint blocks_of (fuel : nat) (blockSize : Z) (p : list byte)
  : list (list byte) :=
  match fuel with
  | O => []
  | S fuel' =>
      if 0 <? len p then
        let chunkSize := if len p <? blockSize then len p else blockSize in
        take (Z.to_nat chunkSize) p
        :: blocks_of fuel' blockSize (drop (Z.to_nat chunkSize) p)
      else []
  end.

(** The block record of one input block: the 4-byte little-endian
    length of its compressed payload, then the payload. *)
Definition block_record (table : list Z) (block : list byte) : list byte :=
  match compressBlock block
          (replicate (Z.to_nat (len block + Z.quot (len block) 255 + 16)) x00)
          table with
  | Ok (n, None, compressed) =>
      le_put_uint32 (u32 n) ++ take (Z.to_nat n) compressed
  | _ => []
  end.

(** The frame a fresh writer leaves after one [Write] call per element
    of [writes], then [Close]. *)
Fixpoint write_all (w : Writer) (writes : list (list byte)) : run Writer :=
  match writes with
  | [] => Ok w
  | p :: writes' =>
      '(w, _, err) ← Writer_Write w p;
      match err with
      | Some _ => Ok w
      | None => write_all w writes'
      end
  end.

Definition frame_of_writes (writes : list (list byte)) : run sink :=
  w ← write_all (NewWriter []) writes;
  Ok (w_dst (Writer_Close w)).

(** A block without repeated four-byte windows in reach of each other:
    the byte at [p] is [0xFF] where [p] is a multiple of 3, and the two
    bytes after it are the base-255 digits of [p / 3]. *)
Definition marked_byte (p : Z) : byte :=
  if p mod 3 =? 0 then xff
  else if p mod 3 =? 1 then byte_of_Z ((p / 3 / 255) mod 255)
  else byte_of_Z ((p / 3) mod 255).

Definition marked_block (n : Z) : list byte :=
  map (fun i : nat => marked_byte (Z.of_nat i)) (seq 0 (Z.to_nat n)).

(** The destination [Write] allocates for a block of [n] bytes. *)
Definition worst_case_dst (n : Z) : list byte :=
  replicate (Z.to_nat (n + Z.quot n 255 + 16)) x00.

(** ** Predicates and objects of the statements *)

(** Every cell is the sentinel or a position before [pos]. *)
Definition table_ok (table : list Z) (pos : Z) : Prop :=
  len table = hashSize
  /\ forall (i : nat) (e : Z), table !! i = Some e -> e = emptySlot \/ 0 <= e < pos.

(** The literals of the sequence being emitted. *)
Definition pending (src : list byte) (st : cstate) : list byte :=
  take (Z.to_nat (srcPos st - anchor st)) (drop (Z.to_nat (anchor st)) src).

(** The invariant of the scan loop, for a destination [dst0] with room
    for the worst case: [seqs] are the sequences emitted so far, they
    replay to the source up to [anchor], and what is written is their
    encoding. *)
Record scan_inv (src dst0 : list byte) (st : cstate) (seqs : list sequence)
  : Prop := ScanInv {
  inv_pos : 0 <= anchor st <= srcPos st /\ srcPos st <= len src;
  inv_table : table_ok (hashTable st) (srcPos st);
  inv_dstPos : dstPos st = len (concat (map encode_sequence seqs));
  inv_dst : dstBuf st = write_at dst0 0 (concat (map encode_sequence seqs));
  inv_valid : valid_seqs 0 seqs;
  inv_play : play [] seqs = take (Z.to_nat (anchor st)) src;
  inv_cost : dstPos st <= anchor st + anchor st / 255
}.

Definition nibble (n : Z) : Z := if n <? 15 then n else 15.

(** The loop-head states of [compressBlock src dst table]: the state on
    entry, and the state a completed iteration leaves. *)
Inductive scan_reach (src dst : list byte) (table : list Z) : cstate -> Prop :=
| reach_init : scan_reach src dst table (scan_init dst table)
| reach_step (st st' : cstate) :
    scan_reach src dst table st ->
    srcPos st <= len src - minMatchLength ->
    scan_body src st = Ok (inl st') ->
    scan_reach src dst table st'.

(** The loop-head states of [decompressBlock src dst]. *)
Inductive decode_reach (src dst : list byte) : dstate -> Prop :=
| dreach_init :
    decode_reach src dst {| d_srcPos := 0; d_dstPos := 0; d_dst := dst |}
| dreach_step (st st' : dstate) :
    decode_reach src dst st ->
    d_srcPos st < len src ->
    decode_sequence src st = Ok (inl st') ->
    decode_reach src dst st'.

(** C7 as the spec words the count: on a corrupted-input failure the
    count returned is the number of bytes decoded before the failing
    sequence, that is, at the head of the loop iteration that fails. *)
Definition count_is_before_failing_sequence : Prop :=
  forall (src dst : list byte) (n : Z) (d' : list byte),
    decompressBlock src dst = Ok (n, Some ErrCorrupted, d') ->
    exists st, decode_reach src dst st /\ d_srcPos st < len src
      /\ decode_sequence src st = Ok (inr (n, Some ErrCorrupted, d'))
      /\ n = d_dstPos st.

(** The two offset bytes at the source position of [st] read as zero,
    or as more than is decoded at [st]. *)
Definition bad_offset_at (src : list byte) (st : dstate) : Prop :=
  d_srcPos st + 2 <= len src
  /\ exists off, le_uint16 (drop (Z.to_nat (d_srcPos st)) src) = Ok off
       /\ (off = 0 \/ d_dstPos st < off).

(** The frame of a 10 MiB input written in one call: the header, the
    records of its first 4 MiB, its next 4 MiB and its last 2 MiB, the
    end-mark; each record a length prefix and a payload of that length
    that decompresses to its block. *)
Definition three_block_frame (X : list byte) : Prop :=
  let X1 := take (Z.to_nat defaultBlockSize) X in
  let X2 := take (Z.to_nat defaultBlockSize) (drop (Z.to_nat defaultBlockSize) X) in
  let X3 := drop (Z.to_nat defaultBlockSize)
                 (drop (Z.to_nat defaultBlockSize) X) in
  let t := w_hashTable (NewWriter []) in
  frame_of_writes [X]
  = Ok (WriteFrameHeader []
        ++ (block_record t X1 ++ block_record t X2 ++ block_record t X3)
        ++ le_put_uint32 endMark)
  /\ X = X1 ++ X2 ++ X3
  /\ len X1 = 4 * 1024 * 1024 /\ len X2 = 4 * 1024 * 1024
  /\ len X3 = 2 * 1024 * 1024
  /\ forall B, In B [X1; X2; X3] ->
       exists n payload d',
         block_record t B = le_put_uint32 n ++ payload
         /\ len payload = n /\ 0 < n
         /\ decompressBlock payload (replicate (Z.to_nat defaultBlockSize) x00)
            = Ok (len B, None, d')
         /\ take (Z.to_nat (len B)) d' = B.

(** The header the writer emits, as [ReadFrameHeader] decodes it. *)
Definition writer_header : DecodedFrameHeader :=
  {| Magic := magic; Version := 1;
     BlocksIndependentFlag := true; BlocksChecksumFlag := false;
     ContentSizeFlag := false; ContentChecksumFlag := false;
     DictIDFlag := false; ContentSize := 0; DictID := 0;
     BlockMaxSize := 4194304 |}.

Definition header_read (r : Reader) (src : source) : Reader :=
  {| r_src := src; r_blockSize := r_blockSize r; r_buffer := r_buffer r;
     r_leftover := r_leftover r; r_leftoverPos := r_leftoverPos r;
     r_eof := r_eof r; r_headerRead := true |}.

(** A frame whose header has the content-checksum flag set (FLG [0x64]:
    version 1, blocks independent, content checksum), then the end-mark. *)
Definition frame_content_checksum : list byte :=
  [x04; x22; x4d; x18; x64; x70; xb9; x00; x00; x00; x00].

Definition marked_val (p : Z) : Z :=
  if p mod 3 =? 0 then 255
  else if p mod 3 =? 1 then (p / 3 / 255) mod 255
  else (p / 3) mod 255.

(** No two four-byte windows of [src] that start within [maxOffset] of
    each other are equal. *)
Definition no_repeat (src : list byte) : Prop :=
  forall pos ref, 0 <= ref < pos -> pos + 4 <= len src -> pos - ref <= maxOffset ->
    exists k, 0 <= k < 4
      /\ src !! Z.to_nat (pos + k) <> src !! Z.to_nat (ref + k).

(** The one sequence the compressor emits for 256 zero bytes: the first
    zero as a literal, then a match of offset 1 over the other 255. *)
Definition zero_run_sequence : sequence :=
  {| s_lits := [x00]; s_offset := 1; s_matchLen := 255 |}.

Definition witness_src : list byte := replicate 8 x00.
Definition witness_dst : list byte := replicate 24 x00.
Definition witness_table : list Z := w_hashTable (NewWriter []).

(** The loop-head state after the first iteration on [witness_src]. *)
Definition witness_state : cstate :=
  match scan_body witness_src (scan_init witness_dst witness_table) with
  | Ok (inl st) => st
  | _ => scan_init witness_dst witness_table
  end.

Definition ten_mib_zeros : list byte := replicate (Z.to_nat (10 * 1024 * 1024)) x00.

(** * Theorems *)

(** ** Bytes and slices *)

Lemma Z_of_byte_range (b : byte) : 0 <= Z_of_byte b <= 255.
Proof.
  unfold Z_of_byte. pose proof (Byte.to_N_bounded b). lia.
Qed.

Lemma Z_of_byte_of_Z (z : Z) : Z_of_byte (byte_of_Z z) = z mod 256.
Proof.
  unfold Z_of_byte, byte_of_Z.
  assert (Hr : 0 <= z mod 256 < 256) by (apply Z.mod_pos_bound; lia).
  destruct (Byte.of_N (Z.to_N (z mod 256))) as [b|] eqn:E.
  - apply Byte.to_of_N in E. rewrite E. lia.
  - apply Byte.of_N_None_iff in E. lia.
Qed.

Lemma byte_of_Z_of_byte (b : byte) : byte_of_Z (Z_of_byte b) = b.
Proof.
  unfold byte_of_Z. pose proof (Z_of_byte_range b) as Hr.
  rewrite Z.mod_small by lia. unfold Z_of_byte.
  rewrite N2Z.id, Byte.of_to_N. reflexivity.
Qed.

Lemma Z_of_byte_inj (a b : byte) : Z_of_byte a = Z_of_byte b -> a = b.
Proof.
  intros H. rewrite <- (byte_of_Z_of_byte a), <- (byte_of_Z_of_byte b).
  now rewrite H.
Qed.

Lemma byte_eqb_eq (a b : byte) : Byte.eqb a b = true <-> a = b.
Proof.
  split; [apply Byte.byte_dec_bl | apply Byte.byte_dec_lb].
Qed.

Lemma len_nonneg {A} (l : list A) : 0 <= len l.
Proof. unfold len. lia. Qed.

Lemma len_app {A} (l k : list A) : len (l ++ k) = len l + len k.
Proof. unfold len. rewrite length_app. lia. Qed.

Lemma len_cons {A} (x : A) (l : list A) : len (x :: l) = 1 + len l.
Proof. unfold len. simpl. lia. Qed.

Lemma len_nil {A} : len (@nil A) = 0.
Proof. reflexivity. Qed.

Lemma len_replicate {A} (n : nat) (x : A) : len (replicate n x) = Z.of_nat n.
Proof. unfold len. now rewrite length_replicate. Qed.

Lemma len_take {A} (l : list A) (n : Z) :
  0 <= n <= len l -> len (take (Z.to_nat n) l) = n.
Proof. unfold len. intros H. rewrite length_take. lia. Qed.

Lemma len_drop {A} (l : list A) (n : Z) :
  0 <= n <= len l -> len (drop (Z.to_nat n) l) = len l - n.
Proof. unfold len. intros H. rewrite length_drop. lia. Qed.

Lemma len_insert {A} (l : list A) (i : nat) (x : A) : len (<[i:=x]> l) = len l.
Proof. unfold len. now rewrite length_insert. Qed.

(** [lia] after division and modulo by constants are turned into
    equations. *)
Ltac dlia := Z.div_mod_to_equations; lia.

(** One step of the outcome monad. *)
Ltac bstep := cbn [mbind run_bind mret run_ret].

Ltac len_simpl :=
  rewrite ?len_app, ?len_cons, ?len_nil, ?len_replicate, ?len_insert in *.

Lemma lookup_lt_len {A} (l : list A) (i : Z) :
  0 <= i < len l -> is_Some (l !! Z.to_nat i).
Proof. unfold len. intros H. apply lookup_lt_is_Some. lia. Qed.

Lemma index_ok {A} (s : list A) (i : Z) (a : A) :
  0 <= i -> s !! Z.to_nat i = Some a -> index s i = Ok a.
Proof.
  intros Hi Hl. unfold index.
  destruct (Z.ltb_spec i 0); [lia|]. now rewrite Hl.
Qed.

Lemma index_inv {A} (s : list A) (i : Z) (a : A) :
  index s i = Ok a -> 0 <= i < len s /\ s !! Z.to_nat i = Some a.
Proof.
  unfold index. destruct (Z.ltb_spec i 0); [discriminate|].
  destruct (s !! Z.to_nat i) eqn:E; [|discriminate].
  intros [= ->]. split; [|reflexivity].
  apply lookup_lt_Some in E. unfold len. lia.
Qed.

Lemma index_panic {A} (s : list A) (i : Z) :
  len s <= i -> index s i = Panic.
Proof.
  intros H. unfold index. destruct (Z.ltb_spec i 0); [reflexivity|].
  rewrite lookup_ge_None_2; [reflexivity|]. unfold len in H. lia.
Qed.

Lemma index_no_timeout {A} (s : list A) (i : Z) : index s i <> Timeout.
Proof.
  unfold index. destruct (i <? 0); [discriminate|].
  destruct (s !! Z.to_nat i); discriminate.
Qed.

Lemma store_ok {A} (s : list A) (i : Z) (v : A) :
  0 <= i < len s -> store s i v = Ok (<[Z.to_nat i := v]> s).
Proof.
  intros H. unfold store. destruct (Z.ltb_spec i 0); [lia|].
  destruct (lookup_lt_len s i H) as [x ->]. reflexivity.
Qed.

Lemma store_inv {A} (s s' : list A) (i : Z) (v : A) :
  store s i v = Ok s' -> 0 <= i < len s /\ s' = <[Z.to_nat i := v]> s.
Proof.
  unfold store. destruct (Z.ltb_spec i 0); [discriminate|].
  destruct (s !! Z.to_nat i) eqn:E; [|discriminate].
  intros [= <-]. split; [|reflexivity].
  apply lookup_lt_Some in E. unfold len. lia.
Qed.

Lemma store_panic {A} (s : list A) (i : Z) (v : A) :
  len s <= i -> store s i v = Panic.
Proof.
  intros H. unfold store. destruct (Z.ltb_spec i 0); [reflexivity|].
  rewrite lookup_ge_None_2; [reflexivity|]. unfold len in H. lia.
Qed.

Lemma slice_ok {A} (s : list A) (lo hi : Z) :
  0 <= lo <= hi -> hi <= len s ->
  slice s lo hi = Ok (take (Z.to_nat (hi - lo)) (drop (Z.to_nat lo) s)).
Proof.
  intros H1 H2. unfold slice.
  destruct (Z.leb_spec 0 lo); [|lia].
  destruct (Z.leb_spec lo hi); [|lia].
  destruct (Z.leb_spec hi (len s)); [|lia]. reflexivity.
Qed.

Lemma slice_from_ok {A} (s : list A) (lo : Z) :
  0 <= lo <= len s -> slice_from s lo = Ok (drop (Z.to_nat lo) s).
Proof.
  intros H. unfold slice_from. rewrite slice_ok by lia.
  f_equal. apply take_ge. unfold len in *. rewrite length_drop. lia.
Qed.

Lemma slice_prefix_ok {A} (s : list A) (hi : Z) :
  0 <= hi <= len s -> slice s 0 hi = Ok (take (Z.to_nat hi) s).
Proof.
  intros H. rewrite slice_ok by lia. now rewrite Z.sub_0_r.
Qed.

(** ** [write_at]: what stores leave in a buffer *)

Lemma write_at_length (dst : list byte) pos bs :
  0 <= pos -> pos + len bs <= len dst -> len (write_at dst pos bs) = len dst.
Proof.
  unfold write_at, len. intros H1 H2.
  rewrite !length_app, length_take, length_drop. lia.
Qed.

Lemma write_at_nil (dst : list byte) pos : write_at dst pos [] = dst.
Proof.
  unfold write_at. simpl. rewrite Nat.add_0_r. apply take_drop.
Qed.

Lemma write_at_take (dst : list byte) pos bs :
  0 <= pos -> pos + len bs <= len dst ->
  take (Z.to_nat (pos + len bs)) (write_at dst pos bs)
  = take (Z.to_nat pos) dst ++ bs.
Proof.
  unfold write_at, len. intros H1 H2.
  rewrite app_assoc. rewrite take_app_le.
  - apply take_ge. rewrite length_app, length_take. lia.
  - rewrite length_app, length_take. lia.
Qed.

Lemma write_at_take_before (dst : list byte) pos bs n :
  (n <= Z.to_nat pos)%nat -> 0 <= pos -> pos <= len dst ->
  take n (write_at dst pos bs) = take n dst.
Proof.
  unfold write_at, len. intros H1 H2 H3.
  rewrite take_app_le by (rewrite length_take; lia).
  rewrite take_take. f_equal. lia.
Qed.

Lemma write_at_app (dst : list byte) pos a b :
  0 <= pos -> pos + len a + len b <= len dst ->
  write_at (write_at dst pos a) (pos + len a) b = write_at dst pos (a ++ b).
Proof.
  unfold write_at, len. intros H1 H2.
  replace (Z.to_nat (pos + Z.of_nat (length a)))
    with (Z.to_nat pos + length a)%nat by lia.
  rewrite (app_assoc (take _ dst) a).
  rewrite take_app_ge by (rewrite length_app, length_take; lia).
  rewrite length_app, length_take.
  replace (Z.to_nat pos + length a
           - (Z.to_nat pos `min` length dst + length a))%nat with 0%nat by lia.
  rewrite take_0, app_nil_r.
  rewrite drop_app_ge by (rewrite length_app, length_take; lia).
  rewrite length_app, length_take, drop_drop, length_app.
  rewrite <- !app_assoc. do 4 f_equal. lia.
Qed.

Lemma store_write_at (dst : list byte) pos b :
  0 <= pos < len dst -> store dst pos b = Ok (write_at dst pos [b]).
Proof.
  intros H. rewrite store_ok by lia. f_equal.
  unfold write_at. rewrite insert_take_drop by (unfold len in H; lia).
  simpl. do 3 f_equal. lia.
Qed.

Lemma copy_at_write_at (dst : list byte) pos data :
  0 <= pos -> pos + len data <= len dst ->
  copy_at dst pos data = Ok (write_at dst pos data).
Proof.
  intros H1 H2. unfold copy_at, write_at, len in *.
  destruct (Z.leb_spec 0 pos); [|lia].
  destruct (Z.leb_spec pos (Z.of_nat (length dst))); [|lia]. simpl.
  rewrite Nat.min_r by lia. rewrite firstn_all. reflexivity.
Qed.

Lemma write_at_lookup_before (dst : list byte) pos bs (i : nat) :
  0 <= pos -> pos <= len dst -> (i < Z.to_nat pos)%nat ->
  write_at dst pos bs !! i = dst !! i.
Proof.
  unfold write_at, len. intros H1 H2 H3.
  rewrite lookup_app_l by (rewrite length_take; lia).
  apply lookup_take_lt. lia.
Qed.

(** ** The compressor's inner loops *)

Lemma put_length_loop_spec (fuel : nat) (dst : list byte) (pos remaining : Z) :
  0 <= remaining -> 0 <= pos -> pos + remaining / 255 <= len dst ->
  remaining / 255 < Z.of_nat fuel ->
  put_length_loop fuel dst pos remaining
  = Ok (write_at dst pos (replicate (Z.to_nat (remaining / 255)) xff),
        pos + remaining / 255, remaining mod 255).
Proof.
  revert dst pos remaining.
  induction fuel as [|fuel IH]; intros dst pos remaining Hr Hp Hfit Hfuel; [dlia|].
  simpl. destruct (Z.leb_spec 255 remaining) as [Hge|Hlt].
  - assert (Hdiv : remaining / 255 = (remaining - 255) / 255 + 1) by dlia.
    assert (Hmod : remaining mod 255 = (remaining - 255) mod 255) by dlia.
    rewrite store_write_at by dlia. simpl.
    assert (Hlen : len (write_at dst pos [byte_of_Z 255]) = len dst)
      by (apply write_at_length; rewrite ?len_cons, ?len_nil; dlia).
    rewrite IH by dlia.
    replace (pos + 1) with (pos + len [byte_of_Z 255]) at 1
      by (rewrite len_cons, len_nil; dlia).
    rewrite write_at_app; rewrite ?len_cons, ?len_nil, ?len_replicate; try dlia.
    f_equal. f_equal; [|dlia]. f_equal; [|dlia]. f_equal.
    rewrite Hdiv. replace (Z.to_nat ((remaining - 255) / 255 + 1))
      with (S (Z.to_nat ((remaining - 255) / 255))) by dlia.
    reflexivity.
  - rewrite Z.div_small, Z.mod_small by dlia. simpl.
    rewrite write_at_nil. repeat f_equal. lia.
Qed.

Lemma length_ext_len (remaining : Z) :
  0 <= remaining -> len (length_ext remaining) = remaining / 255 + 1.
Proof.
  intros H. unfold length_ext. rewrite len_app, len_replicate, len_cons, len_nil.
  assert (0 <= remaining / 255) by (apply Z.div_pos; lia). lia.
Qed.

Lemma put_length_spec (dst : list byte) (pos remaining : Z) :
  0 <= remaining -> 0 <= pos -> pos + remaining / 255 + 1 <= len dst ->
  put_length dst pos remaining
  = Ok (write_at dst pos (length_ext remaining), pos + len (length_ext remaining)).
Proof.
  intros Hr Hp Hfit. unfold put_length.
  assert (H0 : 0 <= remaining / 255) by (apply Z.div_pos; lia).
  rewrite put_length_loop_spec by dlia. simpl.
  rewrite length_ext_len by lia. unfold length_ext.
  set (ff := replicate (Z.to_nat (remaining / 255)) xff).
  assert (Hff : len ff = remaining / 255)
    by (unfold ff; rewrite len_replicate; lia).
  rewrite <- Hff.
  rewrite store_write_at by (rewrite write_at_length; lia).
  simpl. rewrite write_at_app by (rewrite ?len_cons, ?len_nil; lia).
  f_equal. f_equal. lia.
Qed.

Lemma match_loop_spec (fuel : nat) (src : list byte) (pos ref maxLen m : Z) :
  0 <= pos -> 0 <= ref -> 0 <= m <= maxLen ->
  pos + maxLen <= len src -> ref + maxLen <= len src ->
  maxLen - m < Z.of_nat fuel ->
  exists M, match_loop fuel src pos ref maxLen m = Ok M
    /\ m <= M <= maxLen
    /\ (forall k, m <= k < M ->
          src !! Z.to_nat (pos + k) = src !! Z.to_nat (ref + k)).
Proof.
  revert m. induction fuel as [|fuel IH]; intros m Hp Hr Hm Hps Hrs Hfuel; [lia|].
  simpl. destruct (Z.ltb_spec m maxLen) as [Hlt|Hge].
  - destruct (lookup_lt_len src (pos + m)) as [a Ha]; [lia|].
    destruct (lookup_lt_len src (ref + m)) as [b Hb]; [lia|].
    rewrite (index_ok src (pos + m) a) by (assumption || lia). simpl.
    rewrite (index_ok src (ref + m) b) by (assumption || lia). simpl.
    destruct (Byte.eqb a b) eqn:E.
    + apply byte_eqb_eq in E. subst b.
      destruct (IH (m + 1)) as (M & HM & Hrange & Heq); try lia.
      exists M. split; [exact HM|]. split; [lia|].
      intros k Hk. destruct (Z.eq_dec k m) as [->|Hne].
      * now rewrite Ha, Hb.
      * apply Heq. lia.
    + exists m. split; [reflexivity|]. split; [lia|]. intros k Hk. lia.
  - exists m. split; [reflexivity|]. split; [lia|]. intros k Hk. lia.
Qed.

(** ** The hash table invariant *)

Lemma hash_index_range (seq : Z) :
  0 <= Z.land (hashSequence seq) (hashSize - 1) < hashSize.
Proof.
  change (hashSize - 1) with (Z.ones 16). rewrite Z.land_ones by lia.
  change hashSize with (2 ^ 16). apply Z.mod_pos_bound. lia.
Qed.

Lemma le_uint32_ok (b : list byte) :
  4 <= len b -> exists v, le_uint32 b = Ok v.
Proof.
  intros H. unfold le_uint32.
  destruct (lookup_lt_len b 0) as [b0 H0]; [lia|].
  destruct (lookup_lt_len b 1) as [b1 H1]; [lia|].
  destruct (lookup_lt_len b 2) as [b2 H2]; [lia|].
  destruct (lookup_lt_len b 3) as [b3 H3]; [lia|].
  rewrite (index_ok b 0 b0) by (assumption || lia). simpl.
  rewrite (index_ok b 1 b1) by (assumption || lia). simpl.
  rewrite (index_ok b 2 b2) by (assumption || lia). simpl.
  rewrite (index_ok b 3 b3) by (assumption || lia). simpl. eauto.
Qed.

Lemma table_ok_init (table : list Z) :
  len table = hashSize -> table_ok (replicate (length table) emptySlot) 0.
Proof.
  intros H. split.
  - rewrite len_replicate. exact H.
  - intros i e Hl. apply lookup_replicate in Hl. left. tauto.
Qed.

Lemma table_ok_mono (table : list Z) (p q : Z) :
  p <= q -> table_ok table p -> table_ok table q.
Proof.
  intros Hpq [Hlen H]. split; [exact Hlen|].
  intros i e Hl. destruct (H i e Hl); [tauto | lia].
Qed.

(** What [find_match] gives at a position that has four bytes ahead: it
    returns, the table stays valid for the next position, and a match it
    reports lies behind [pos], within reach, and agrees with the source
    on its whole length. *)
Lemma find_match_spec (src : list byte) (pos : Z) (table : list Z) :
  table_ok table pos -> 0 <= pos -> pos + 4 <= len src -> len src < emptySlot ->
  exists table' r, find_match src pos table = Ok (table', r)
    /\ table_ok table' (pos + 1)
    /\ match r with
       | None => True
       | Some (ref, M) =>
           0 <= ref < pos /\ pos - ref <= maxOffset
           /\ minMatchLength <= M /\ M <= len src - pos /\ M <= maxMatchLength
           /\ table !! Z.to_nat (Z.land (hashSequence
                 match le_uint32 (drop (Z.to_nat pos) src) with
                 | Ok v => v | _ => 0 end) (hashSize - 1)) = Some ref
           /\ forall k, 0 <= k < M ->
                src !! Z.to_nat (pos + k) = src !! Z.to_nat (ref + k)
       end.
Proof.
  intros [Hlen Htab] Hpos Hfit Hsmall. unfold find_match.
  rewrite slice_from_ok by lia. bstep.
  destruct (le_uint32_ok (drop (Z.to_nat pos) src)) as [seq Hseq];
    [rewrite len_drop; lia|].
  rewrite Hseq. bstep.
  pose proof (hash_index_range seq) as Hh.
  set (h := Z.land (hashSequence seq) (hashSize - 1)) in *.
  destruct (lookup_lt_len table h) as [ref Href]; [lia|].
  rewrite (index_ok table h ref) by (assumption || lia). bstep.
  rewrite store_ok by lia. bstep.
  assert (Hu : u32 pos = pos).
  { unfold u32. apply Z.mod_small. unfold emptySlot in Hsmall. lia. }
  rewrite Hu.
  assert (Htab' : table_ok (<[Z.to_nat h:=pos]> table) (pos + 1)).
  { split; [now rewrite len_insert|].
    intros i e Hl. destruct (decide (i = Z.to_nat h)) as [->|Hne].
    - rewrite list_lookup_insert_eq in Hl
        by (apply lookup_lt_is_Some; eauto).
      injection Hl as <-. right. lia.
    - rewrite list_lookup_insert_ne in Hl by congruence.
      destruct (Htab i e Hl); [tauto|right; lia]. }
  destruct (Z.eqb_spec ref emptySlot) as [Hs|Hns]; cbn [orb].
  { eexists _, None. repeat split; try reflexivity; apply Htab'. }
  destruct (Htab _ _ Href) as [|Hrange]; [contradiction|].
  assert (Hu2 : u32 (pos - ref) = pos - ref).
  { unfold u32. apply Z.mod_small. unfold emptySlot in Hsmall. lia. }
  rewrite Hu2.
  destruct (Z.ltb_spec maxOffset (pos - ref)) as [Hfar|Hnear].
  { eexists _, None. repeat split; try reflexivity; apply Htab'. }
  set (maxLen := if maxMatchLength <? len src - pos
                 then maxMatchLength else len src - pos).
  assert (HmaxLen : 0 <= maxLen /\ maxLen <= len src - pos
                    /\ maxLen <= maxMatchLength).
  { unfold maxLen, maxMatchLength.
    destruct (Z.ltb_spec 65535 (len src - pos)); lia. }
  destruct (match_loop_spec (S (Z.to_nat maxLen)) src pos ref maxLen 0)
    as (M & HM & HMr & Heq); try lia.
  rewrite HM. bstep.
  destruct (Z.ltb_spec M minMatchLength) as [Hshort|Hlong].
  { eexists _, None. repeat split; try reflexivity; apply Htab'. }
  eexists _, (Some (ref, M)). split; [reflexivity|]. split; [exact Htab'|].
  repeat split; try lia. exact Href. exact Heq.
Qed.

(** ** Stores that append to what was written *)

Lemma store_acc (dst : list byte) (pos : Z) (acc : list byte) (q : Z) (b : byte) :
  0 <= pos -> q = pos + len acc -> q < len dst ->
  store (write_at dst pos acc) q b = Ok (write_at dst pos (acc ++ [b])).
Proof.
  intros Hp -> Hq. pose proof (len_nonneg acc).
  rewrite store_write_at by (rewrite write_at_length; lia).
  rewrite write_at_app by (rewrite ?len_cons, ?len_nil; lia). reflexivity.
Qed.

Lemma copy_acc (dst : list byte) (pos : Z) (acc : list byte) (q : Z)
      (data : list byte) :
  0 <= pos -> q = pos + len acc -> q + len data <= len dst ->
  copy_at (write_at dst pos acc) q data = Ok (write_at dst pos (acc ++ data)).
Proof.
  intros Hp -> Hq. pose proof (len_nonneg acc). pose proof (len_nonneg data).
  rewrite copy_at_write_at by (rewrite ?write_at_length; lia).
  rewrite write_at_app by lia. reflexivity.
Qed.

Lemma put_length_acc (dst : list byte) (pos : Z) (acc : list byte) (q r : Z) :
  0 <= pos -> 0 <= r -> q = pos + len acc ->
  q + len (length_ext r) <= len dst ->
  put_length (write_at dst pos acc) q r
  = Ok (write_at dst pos (acc ++ length_ext r),
        pos + len (acc ++ length_ext r)).
Proof.
  intros Hp Hr -> Hq. pose proof (len_nonneg acc).
  rewrite length_ext_len in Hq by lia.
  rewrite put_length_spec by (rewrite ?write_at_length; dlia).
  rewrite write_at_app by (rewrite ?length_ext_len by lia; dlia).
  rewrite len_app. f_equal. f_equal. lia.
Qed.

Lemma opt_ext_acc (dst : list byte) (pos : Z) (acc : list byte) (q n : Z) :
  0 <= pos -> q = pos + len acc ->
  q + len (opt_ext n) <= len dst ->
  (if 15 <=? n then put_length (write_at dst pos acc) q (n - 15)
   else Ok (write_at dst pos acc, q))
  = Ok (write_at dst pos (acc ++ opt_ext n), pos + len (acc ++ opt_ext n)).
Proof.
  intros Hp -> Hq. unfold opt_ext in *.
  destruct (Z.leb_spec 15 n).
  - apply put_length_acc; lia.
  - rewrite app_nil_r. reflexivity.
Qed.

Lemma opt_ext_nonneg (n : Z) : 0 <= len (opt_ext n).
Proof. apply len_nonneg. Qed.

Lemma pending_len (src : list byte) (st : cstate) :
  0 <= anchor st <= srcPos st -> srcPos st <= len src ->
  len (pending src st) = srcPos st - anchor st.
Proof.
  intros H1 H2. unfold pending. rewrite len_take; [lia|].
  rewrite len_drop; lia.
Qed.

(** With room for the whole sequence, [emit_sequence] writes exactly
    its encoding after what was written, and moves past the match. *)
Lemma emit_sequence_spec (src : list byte) (st : cstate) (ref M : Z) :
  0 <= anchor st <= srcPos st -> srcPos st <= len src -> 0 <= dstPos st ->
  let s := {| s_lits := pending src st; s_offset := srcPos st - ref;
              s_matchLen := M |} in
  dstPos st + len (encode_sequence s) <= len (dstBuf st) ->
  emit_sequence src st ref M
  = Ok (inl {| srcPos := srcPos st + M;
               anchor := srcPos st + M;
               dstPos := dstPos st + len (encode_sequence s);
               dstBuf := write_at (dstBuf st) (dstPos st) (encode_sequence s);
               hashTable := hashTable st |}).
Proof.
  intros Ha Hs Hd s Hroom. unfold emit_sequence.
  pose proof (pending_len src st Ha Hs) as HL.
  unfold encode_sequence in *. cbn [s_lits s_offset s_matchLen s] in *.
  rewrite HL in *.
  set (L := srcPos st - anchor st) in *.
  set (tok := byte_of_Z (Z.lor (literal_token L) (match_nibble (M - minMatchLength)))) in *.
  rewrite !len_app, !len_cons, !len_nil, HL in Hroom.
  pose proof (opt_ext_nonneg L). pose proof (opt_ext_nonneg (M - minMatchLength)).
  destruct (Z.ltb_spec (len (dstBuf st)) (dstPos st + 1 + L + 2)); [lia|].
  set (dst := dstBuf st) in *. set (pos := dstPos st) in *.
  rewrite <- (write_at_nil dst pos) at 1.
  replace (byte_of_Z (if M - minMatchLength <? 15
                      then Z.lor (literal_token L) (u8 (M - minMatchLength))
                      else Z.lor (literal_token L) 15)) with tok
    by (unfold tok, match_nibble; destruct (_ <? _); reflexivity).
  rewrite (store_acc dst pos [] pos tok) by (rewrite ?len_nil; lia). bstep.
  rewrite (opt_ext_acc dst pos ([] ++ [tok]) (pos + 1) L)
    by (rewrite ?len_app, ?len_cons, ?len_nil; lia).
  bstep.
  assert (Hlits :
    (if 0 <? L then
       lits ← slice src (anchor st) (srcPos st);
       dst0 ← copy_at (write_at dst pos (([] ++ [tok]) ++ opt_ext L))
                (pos + len (([] ++ [tok]) ++ opt_ext L)) lits;
       Ok (dst0, pos + len (([] ++ [tok]) ++ opt_ext L) + L)
     else Ok (write_at dst pos (([] ++ [tok]) ++ opt_ext L),
              pos + len (([] ++ [tok]) ++ opt_ext L)))
    = Ok (write_at dst pos ((([] ++ [tok]) ++ opt_ext L) ++ pending src st),
          pos + len ((([] ++ [tok]) ++ opt_ext L) ++ pending src st))).
  { destruct (Z.ltb_spec 0 L).
    - rewrite slice_ok by lia. bstep. fold L.
      change (take (Z.to_nat L) (drop (Z.to_nat (anchor st)) src))
        with (pending src st).
      rewrite (copy_acc dst pos) by (rewrite ?len_app, ?len_cons, ?len_nil, ?HL; lia).
      bstep. rewrite (len_app _ (pending src st)), HL. f_equal. f_equal. lia.
    - assert (Hnil : pending src st = []).
      { destruct (pending src st); [reflexivity|]. rewrite len_cons in HL.
        pose proof (len_nonneg l). lia. }
      rewrite Hnil, app_nil_r. reflexivity. }
  rewrite Hlits. bstep.
  set (acc := (([] ++ [tok]) ++ opt_ext L) ++ pending src st) in *.
  assert (Hacc : len acc = 1 + len (opt_ext L) + L).
  { unfold acc. rewrite !len_app, len_cons, !len_nil, HL. lia. }
  rewrite (store_acc dst pos acc) by lia. bstep.
  rewrite (store_acc dst pos (acc ++ [_]))
    by (rewrite ?len_app, ?len_cons, ?len_nil; lia).
  bstep.
  rewrite (opt_ext_acc dst pos _ (pos + len acc + 2) (M - minMatchLength))
    by (rewrite ?len_app, ?len_cons, ?len_nil; lia).
  bstep. f_equal. f_equal.
  unfold acc. simpl app. rewrite <- !app_assoc. simpl app.
  reflexivity.
Qed.

Lemma emit_last_spec (src : list byte) (st : cstate) :
  0 <= anchor st <= len src -> 0 <= dstPos st ->
  let lits := drop (Z.to_nat (anchor st)) src in
  dstPos st + len (encode_last lits) <= len (dstBuf st) ->
  emit_last src st
  = Ok (dstPos st + len (encode_last lits), None,
        write_at (dstBuf st) (dstPos st) (encode_last lits)).
Proof.
  intros Ha Hd lits Hroom. unfold emit_last.
  assert (HL : len lits = len src - anchor st)
    by (unfold lits; rewrite len_drop; lia).
  destruct (Z.ltb_spec (anchor st) (len src)) as [Hlt|Hge].
  - assert (Henc : encode_last lits
                   = [byte_of_Z (literal_token (len lits))]
                     ++ opt_ext (len lits) ++ lits).
    { unfold encode_last. destruct lits; [|reflexivity].
      rewrite len_nil in HL. lia. }
    rewrite Henc in *. rewrite HL in *.
    set (L := len src - anchor st) in *.
    rewrite !len_app, !len_cons, !len_nil, HL in Hroom.
    pose proof (opt_ext_nonneg L).
    destruct (Z.ltb_spec (len (dstBuf st)) (dstPos st + 1 + L)); [lia|].
    set (dst := dstBuf st) in *. set (pos := dstPos st) in *.
    rewrite <- (write_at_nil dst pos) at 1.
    rewrite (store_acc dst pos [] pos) by (rewrite ?len_nil; lia). bstep.
    rewrite (opt_ext_acc dst pos ([] ++ [_]) (pos + 1) L)
      by (rewrite ?len_app, ?len_cons, ?len_nil; lia).
    bstep. rewrite slice_ok by lia. bstep.
    replace (take (Z.to_nat (len src - anchor st)) (drop (Z.to_nat (anchor st)) src))
      with lits.
    2:{ unfold lits. symmetry. apply take_ge. rewrite length_drop.
        unfold len. lia. }
    rewrite (copy_acc dst pos)
      by (rewrite ?len_app, ?len_cons, ?len_nil, ?HL; lia).
    bstep. rewrite <- !app_assoc. cbn [app].
    rewrite !len_cons, !len_app, HL. f_equal. f_equal. f_equal. lia.
  - assert (Hnil : lits = []).
    { destruct lits; [reflexivity|]. rewrite len_cons in HL.
      pose proof (len_nonneg lits). lia. }
    rewrite Hnil. cbn [encode_last]. rewrite len_nil, write_at_nil.
    f_equal. f_equal. f_equal. lia.
Qed.

(** ** The size of what is emitted *)

Lemma opt_ext_len (n : Z) :
  0 <= n ->
  len (opt_ext n) = if 15 <=? n then (n - 15) / 255 + 1 else 0.
Proof.
  intros H. unfold opt_ext. destruct (Z.leb_spec 15 n).
  - apply length_ext_len. lia.
  - reflexivity.
Qed.

Lemma encode_sequence_len (s : sequence) :
  len (encode_sequence s)
  = 1 + len (opt_ext (len (s_lits s))) + len (s_lits s) + 2
    + len (opt_ext (s_matchLen s - minMatchLength)).
Proof.
  unfold encode_sequence. rewrite !len_app, !len_cons, !len_nil. lia.
Qed.

(** A sequence costs no more than the source bytes it covers plus one
    byte for every 255 of them. *)
Lemma encode_sequence_cost (s : sequence) :
  minMatchLength <= s_matchLen s ->
  let n := len (s_lits s) + s_matchLen s in
  len (encode_sequence s) <= n + n / 255.
Proof.
  intros HM n. unfold n. rewrite encode_sequence_len.
  pose proof (len_nonneg (s_lits s)) as HL.
  unfold minMatchLength in *.
  rewrite !opt_ext_len by lia.
  destruct (Z.leb_spec 15 (len (s_lits s)));
    destruct (Z.leb_spec 15 (s_matchLen s - 4)); dlia.
Qed.

Lemma encode_last_cost (lits : list byte) :
  len (encode_last lits) <= len lits + len lits / 255 + 2.
Proof.
  pose proof (len_nonneg lits) as HL.
  destruct lits as [|b lits].
  - cbn [encode_last]. rewrite len_nil. dlia.
  - cbn [encode_last]. set (l := b :: lits) in *.
    rewrite !len_app, !len_cons, !len_nil, opt_ext_len by lia.
    destruct (Z.leb_spec 15 (len l)); dlia.
Qed.

Lemma encode_last_nonempty (lits : list byte) :
  lits <> [] -> 0 < len (encode_last lits).
Proof.
  intros H. destruct lits; [contradiction|]. cbn [encode_last app].
  rewrite len_cons.
  pose proof (len_nonneg (opt_ext (len (b :: lits)) ++ b :: lits)). lia.
Qed.

(** ** Replaying sequences *)

Lemma lz_extend_len (count : nat) (out : list byte) (off : Z) :
  1 <= off <= len out ->
  len (lz_extend count out off) = len out + Z.of_nat count.
Proof.
  revert out. induction count as [|count IH]; intros out H; simpl; [lia|].
  destruct (lookup_lt_len out (len out - off)) as [b ->]; [lia|].
  rewrite IH; rewrite len_app, len_cons, len_nil; lia.
Qed.

Lemma play_app (out : list byte) (a b : list sequence) :
  play out (a ++ b) = play (play out a) b.
Proof.
  revert out. induction a as [|s a IH]; intros out; simpl; [reflexivity|].
  apply IH.
Qed.

Lemma valid_seqs_app (out : list byte) (a b : list sequence) :
  valid_seqs (len out) a -> valid_seqs (len (play out a)) b ->
  valid_seqs (len out) (a ++ b).
Proof.
  revert out. induction a as [|s a IH]; intros out Ha Hb; simpl in *.
  - exact Hb.
  - destruct Ha as (Ho & Hm & HM & Ha). repeat split; try lia.
    set (out' := lz_extend (Z.to_nat (s_matchLen s)) (out ++ s_lits s) (s_offset s)) in *.
    assert (Hlen : len out' = len out + len (s_lits s) + s_matchLen s).
    { unfold out'. rewrite lz_extend_len; rewrite len_app; unfold minMatchLength in *; lia. }
    rewrite <- Hlen. apply IH; [rewrite Hlen; exact Ha | exact Hb].
Qed.

Lemma play_len (out : list byte) (seqs : list sequence) :
  valid_seqs (len out) seqs -> len out <= len (play out seqs).
Proof.
  revert out. induction seqs as [|s seqs IH]; intros out H; simpl in *; [lia|].
  destruct H as (Ho & Hm & HM & H).
  set (out' := lz_extend (Z.to_nat (s_matchLen s)) (out ++ s_lits s) (s_offset s)) in *.
  assert (Hlen : len out' = len out + len (s_lits s) + s_matchLen s).
  { unfold out'. rewrite lz_extend_len; rewrite len_app; unfold minMatchLength in *; lia. }
  rewrite <- Hlen in H. apply IH in H.
  pose proof (len_nonneg (s_lits s)). unfold minMatchLength in *. lia.
Qed.

(** A match found in the source replays to the source: extending the
    first [pos + k] bytes by [count] copies from [pos - ref] back gives
    the first [pos + k + count] bytes. *)
Lemma lz_extend_take (src : list byte) (pos ref : Z) (count : nat) (k : Z) :
  0 <= ref < pos -> 0 <= k -> pos + k + Z.of_nat count <= len src ->
  (forall j, k <= j < k + Z.of_nat count ->
     src !! Z.to_nat (pos + j) = src !! Z.to_nat (ref + j)) ->
  lz_extend count (take (Z.to_nat (pos + k)) src) (pos - ref)
  = take (Z.to_nat (pos + k + Z.of_nat count)) src.
Proof.
  revert k. induction count as [|count IH]; intros k Hr Hk Hfit Heq.
  - simpl. f_equal. lia.
  - simpl. rewrite len_take by lia.
    replace (pos + k - (pos - ref)) with (ref + k) by lia.
    rewrite lookup_take_lt by lia.
    rewrite <- (Heq k) by lia.
    destruct (lookup_lt_len src (pos + k)) as [b Hb]; [lia|].
    rewrite Hb. rewrite <- (take_S_r _ _ _ Hb).
    replace (S (Z.to_nat (pos + k))) with (Z.to_nat (pos + (k + 1))) by lia.
    rewrite IH; try lia.
    + f_equal. lia.
    + intros j Hj. apply Heq. lia.
Qed.

(** ** The scan loop *)

Lemma concat_map_snoc (seqs : list sequence) (s : sequence) :
  concat (map encode_sequence (seqs ++ [s]))
  = concat (map encode_sequence seqs) ++ encode_sequence s.
Proof.
  rewrite map_app, concat_app. simpl. now rewrite app_nil_r.
Qed.

Lemma scan_body_inv (src dst0 : list byte) (st : cstate) (seqs : list sequence) :
  scan_inv src dst0 st seqs ->
  srcPos st <= len src - minMatchLength ->
  len src < emptySlot ->
  len src + len src / 255 <= len dst0 ->
  exists st' seqs', scan_body src st = Ok (inl st')
    /\ scan_inv src dst0 st' seqs'
    /\ srcPos st < srcPos st'.
Proof.
  intros [Hpos Htab HdP Hdst Hval Hplay Hcost] Hloop Hsmall Hroom.
  unfold minMatchLength in Hloop. unfold scan_body.
  destruct (find_match_spec src (srcPos st) (hashTable st))
    as (table' & r & Hfm & Htab' & Hr); try lia; [exact Htab|].
  rewrite Hfm. bstep. destruct r as [[ref M]|].
  - destruct Hr as (Href & Hoff & HM & HMfit & HMmax & _ & Heq).
    set (st1 := {| srcPos := srcPos st; anchor := anchor st; dstPos := dstPos st;
                   dstBuf := dstBuf st; hashTable := table' |}).
    set (s := {| s_lits := pending src st1; s_offset := srcPos st - ref;
                 s_matchLen := M |}).
    assert (HL : len (pending src st1) = srcPos st - anchor st)
      by (apply (pending_len src st1); simpl; lia).
    pose proof (encode_sequence_cost s HM) as Hc. cbn [s s_lits s_matchLen] in Hc.
    rewrite HL in Hc. fold s in Hc.
    pose proof (len_nonneg (concat (map encode_sequence seqs))) as Hnn.
    unfold minMatchLength in HM.
    assert (Hnew : dstPos st + len (encode_sequence s)
                   <= srcPos st + M + (srcPos st + M) / 255) by dlia.
    assert (Hcap : dstPos st + len (encode_sequence s) <= len dst0) by dlia.
    assert (Hwl : len (dstBuf st) = len dst0)
      by (rewrite Hdst, write_at_length; dlia).
    rewrite (emit_sequence_spec src st1 ref M)
      by (cbn [srcPos anchor dstPos dstBuf st1]; fold s; lia).
    cbn [srcPos anchor dstPos dstBuf st1]. fold s.
    eexists _, (seqs ++ [s]). split; [reflexivity|]. split; [|simpl; lia].
    constructor; cbn [srcPos anchor dstPos dstBuf hashTable].
    + lia.
    + apply (table_ok_mono _ (srcPos st + 1)); [lia | exact Htab'].
    + rewrite concat_map_snoc, len_app. lia.
    + rewrite concat_map_snoc, Hdst.
      rewrite <- write_at_app by lia. rewrite HdP. reflexivity.
    + change 0 with (len (@nil byte)). apply valid_seqs_app; [exact Hval|].
      rewrite Hplay, len_take by lia. simpl. rewrite HL.
      unfold maxOffset, minMatchLength in *. repeat split; lia.
    + rewrite play_app, Hplay. simpl.
      assert (Htk : take (Z.to_nat (anchor st)) src ++ pending src st1
                    = take (Z.to_nat (srcPos st + 0)) src).
      { unfold pending. simpl. rewrite take_take_drop. f_equal. lia. }
      rewrite Htk. rewrite (lz_extend_take src (srcPos st) ref); try lia.
      * f_equal. lia.
      * intros j Hj. apply Heq. lia.
    + exact Hnew.
  - eexists _, seqs. split; [reflexivity|]. split; [|simpl; lia].
    constructor; cbn [srcPos anchor dstPos dstBuf hashTable]; try assumption. lia.
Qed.

Lemma scan_loop_inv (src dst0 : list byte) (fuel : nat) (st : cstate)
      (seqs : list sequence) :
  scan_inv src dst0 st seqs ->
  len src < emptySlot ->
  len src + len src / 255 <= len dst0 ->
  len src - srcPos st < Z.of_nat fuel ->
  exists st' seqs', scan_loop fuel src st = Ok (inl st')
    /\ scan_inv src dst0 st' seqs'
    /\ len src - minMatchLength < srcPos st'.
Proof.
  revert st seqs. induction fuel as [|fuel IH]; intros st seqs Hinv Hsmall Hroom Hfuel.
  - destruct Hinv as [Hpos _ _ _ _ _ _]. lia.
  - cbn [scan_loop]. destruct (Z.leb_spec (srcPos st) (len src - minMatchLength)) as [Hle|Hgt].
    + destruct (scan_body_inv src dst0 st seqs Hinv Hle Hsmall Hroom)
        as (st1 & seqs1 & Hbody & Hinv1 & Hadv).
      rewrite Hbody. bstep. apply (IH st1 seqs1); try assumption. lia.
    + exists st, seqs. split; [reflexivity|]. split; [exact Hinv | lia].
Qed.

(** Total correctness of the block compressor on a destination of at
    least the worst-case size: it returns without error, what it wrote
    is the encoding of a valid list of sequences and a trailing run of
    literals that replay to the source, and the count is within
    [len src + len src / 255 + 2]. *)
Theorem compressBlock_ok (src dst : list byte) (table : list Z) :
  len table = hashSize ->
  len src < emptySlot ->
  len src + len src / 255 + 16 <= len dst ->
  exists seqs last,
    compressBlock src dst table
    = Ok (len (encode_block seqs last), None,
          write_at dst 0 (encode_block seqs last))
    /\ valid_seqs 0 seqs
    /\ play [] seqs ++ last = src
    /\ len (encode_block seqs last) <= len src + len src / 255 + 2
    /\ (src <> [] -> 0 < len (encode_block seqs last)).
Proof.
  intros Htab Hsmall Hroom. unfold compressBlock.
  destruct (Z.eqb_spec (len src) 0) as [H0|Hne].
  - exists [], []. assert (src = []) as ->.
    { destruct src; [reflexivity|]. rewrite len_cons in H0.
      pose proof (len_nonneg src). lia. }
    unfold encode_block. simpl. rewrite write_at_nil.
    split; [reflexivity|]. split; [exact I|]. split; [reflexivity|].
    split; [vm_compute; discriminate|]. intros H. now contradiction H.
  - assert (Hinit : scan_inv src dst (scan_init dst table) []).
    { constructor;
        [ simpl; pose proof (len_nonneg src); lia
        | apply table_ok_init; exact Htab
        | reflexivity
        | simpl; now rewrite write_at_nil
        | exact I
        | reflexivity
        | simpl; dlia ]. }
    assert (Hfuel : len src - srcPos (scan_init dst table) < Z.of_nat (S (length src)))
      by (cbn [srcPos scan_init]; unfold len; lia).
    assert (Hroom' : len src + len src / 255 <= len dst) by lia.
    destruct (scan_loop_inv src dst (S (length src)) _ _ Hinit Hsmall Hroom' Hfuel)
      as (st & seqs & Hloop & [Hpos Ht HdP Hdst Hval Hplay Hcost] & Hend).
    rewrite Hloop. bstep.
    set (last := drop (Z.to_nat (anchor st)) src).
    assert (HL : len last = len src - anchor st)
      by (unfold last; rewrite len_drop; lia).
    pose proof (encode_last_cost last) as Hlc. rewrite HL in Hlc.
    pose proof (len_nonneg (concat (map encode_sequence seqs))) as Hnn.
    pose proof (len_nonneg (encode_last last)) as Hnl.
    rewrite emit_last_spec; try lia.
    2:{ fold last. rewrite Hdst, write_at_length by dlia. dlia. }
    fold last. exists seqs, last. unfold encode_block.
    rewrite len_app, <- HdP. split.
    { f_equal. f_equal. rewrite Hdst, <- write_at_app by dlia.
      rewrite HdP. reflexivity. }
    split; [exact Hval|]. split.
    { rewrite Hplay. apply take_drop. }
    split; [dlia|]. intros _.
    destruct (Z.eq_dec (anchor st) (len src)) as [Heq|Hlt].
    + (* the last match ran to the end: some sequence was emitted *)
      destruct seqs as [|s seqs].
      * simpl in Hplay. symmetry in Hplay.
        apply (f_equal len) in Hplay. rewrite len_take, len_nil in Hplay by lia. lia.
      * rewrite HdP. cbn [map concat]. rewrite len_app, encode_sequence_len.
        pose proof (len_nonneg (concat (map encode_sequence seqs))).
        pose proof (len_nonneg (s_lits s)).
        pose proof (opt_ext_nonneg (len (s_lits s))).
        pose proof (opt_ext_nonneg (s_matchLen s - minMatchLength)). lia.
    + assert (0 < len (encode_last last)).
      { apply encode_last_nonempty. intros E. rewrite E, len_nil in HL. lia. }
      lia.
Qed.

(** ** Tokens, offsets and length extensions as the decoder reads them *)

Lemma le16_roundtrip (off : Z) :
  0 <= off < 65536 ->
  Z.lor (Z_of_byte (byte_of_Z off))
        (Z.shiftl (Z_of_byte (byte_of_Z (Z.shiftr off 8))) 8) = off.
Proof.
  intros H. rewrite !Z_of_byte_of_Z. change 256 with (2 ^ 8).
  apply Z.bits_inj'. intros n Hn.
  rewrite Z.lor_spec, Z.testbit_mod_pow2 by lia.
  rewrite Z.shiftl_spec by lia.
  destruct (Z.ltb_spec n 8) as [Hlt|Hge]; simpl.
  - rewrite (Z.testbit_neg_r _ (n - 8)) by lia. apply orb_false_r.
  - rewrite Z.testbit_mod_pow2 by lia. rewrite Z.shiftr_spec by lia.
    replace (n - 8 + 8) with n by lia.
    destruct (Z.ltb_spec (n - 8) 8) as [Hlt|Hge2]; simpl; [reflexivity|].
    symmetry. apply (Z.bits_above_log2 off n); [lia|].
    destruct (Z.eq_dec off 0) as [->|Hne]; [simpl; lia|].
    apply Z.log2_lt_pow2; [lia|].
    apply Z.lt_le_trans with (2 ^ 16); [simpl; lia|].
    apply Z.pow_le_mono_r; lia.
Qed.

Lemma literal_token_nibble (L : Z) :
  0 <= L -> literal_token L = Z.shiftl (nibble L) 4.
Proof.
  intros H. unfold literal_token, nibble. destruct (Z.ltb_spec L 15); [|reflexivity].
  unfold u8. rewrite Z.shiftl_mul_pow2 by lia. apply Z.mod_small. simpl; lia.
Qed.

Lemma match_nibble_nibble (mc : Z) : 0 <= mc -> match_nibble mc = nibble mc.
Proof.
  intros H. unfold match_nibble, nibble. destruct (Z.ltb_spec mc 15); [|reflexivity].
  unfold u8. apply Z.mod_small. lia.
Qed.

Lemma token_split (a b : Z) :
  0 <= a < 16 -> 0 <= b < 16 ->
  Z.shiftr (Z_of_byte (byte_of_Z (Z.lor (Z.shiftl a 4) b))) 4 = a
  /\ Z.land (Z_of_byte (byte_of_Z (Z.lor (Z.shiftl a 4) b))) 15 = b.
Proof.
  intros Ha Hb.
  assert (Ea : a = 0 \/ a = 1 \/ a = 2 \/ a = 3 \/ a = 4 \/ a = 5 \/ a = 6 \/ a = 7
               \/ a = 8 \/ a = 9 \/ a = 10 \/ a = 11 \/ a = 12 \/ a = 13 \/ a = 14
               \/ a = 15) by lia.
  assert (Eb : b = 0 \/ b = 1 \/ b = 2 \/ b = 3 \/ b = 4 \/ b = 5 \/ b = 6 \/ b = 7
               \/ b = 8 \/ b = 9 \/ b = 10 \/ b = 11 \/ b = 12 \/ b = 13 \/ b = 14
               \/ b = 15) by lia.
  clear Ha Hb.
  repeat (destruct Ea as [->|Ea]); try subst a;
    repeat (destruct Eb as [->|Eb]); try subst b; split; reflexivity.
Qed.

Lemma nibble_range (n : Z) : 0 <= n -> 0 <= nibble n < 16.
Proof. intros H. unfold nibble. destruct (Z.ltb_spec n 15); lia. Qed.

Lemma token_literal_len (L mc : Z) :
  0 <= L -> 0 <= mc ->
  Z.shiftr (Z_of_byte (byte_of_Z (Z.lor (literal_token L) (match_nibble mc)))) 4
  = nibble L.
Proof.
  intros HL Hm. rewrite literal_token_nibble, match_nibble_nibble by lia.
  apply token_split; apply nibble_range; lia.
Qed.

Lemma token_match_len (L mc : Z) :
  0 <= L -> 0 <= mc ->
  Z.land (Z_of_byte (byte_of_Z (Z.lor (literal_token L) (match_nibble mc)))) 15
  = nibble mc.
Proof.
  intros HL Hm. rewrite literal_token_nibble, match_nibble_nibble by lia.
  apply token_split; apply nibble_range; lia.
Qed.

Lemma token_last_len (L : Z) :
  0 <= L ->
  Z.shiftr (Z_of_byte (byte_of_Z (literal_token L))) 4 = nibble L.
Proof.
  intros HL. rewrite <- (Z.lor_0_r (literal_token L)).
  change 0 with (match_nibble 0) at 1. apply token_literal_len; lia.
Qed.

(** Reading a run of [k] bytes [0xFF] closed by a byte below [0xFF]. *)
Lemma read_length_run (fuel : nat) (src : list byte) (pos n : Z) (k : nat)
      (b : byte) :
  0 <= pos ->
  (forall i : nat, (i < k)%nat -> src !! (Z.to_nat pos + i)%nat = Some xff) ->
  src !! (Z.to_nat pos + k)%nat = Some b ->
  Z_of_byte b <> 255 ->
  (k < fuel)%nat ->
  read_length fuel src pos n
  = Ok (Some (pos + Z.of_nat k + 1, n + 255 * Z.of_nat k + Z_of_byte b)).
Proof.
  revert pos n k. induction fuel as [|fuel IH]; intros pos n k Hp Hff Hb Hne Hfuel; [lia|].
  cbn [read_length].
  assert (Hin : pos < len src).
  { destruct k.
    - apply lookup_lt_Some in Hb. unfold len. lia.
    - specialize (Hff 0%nat ltac:(lia)). apply lookup_lt_Some in Hff. unfold len. lia. }
  destruct (Z.leb_spec (len src) pos); [lia|].
  destruct k as [|k].
  - rewrite Nat.add_0_r in Hb. rewrite (index_ok src pos b) by (assumption || lia).
    bstep. destruct (Z.eqb_spec (Z_of_byte b) 255); [contradiction|].
    cbn [negb]. f_equal. f_equal. f_equal; lia.
  - pose proof (Hff 0%nat ltac:(lia)) as H0. rewrite Nat.add_0_r in H0.
    rewrite (index_ok src pos xff) by (assumption || lia). bstep.
    change (Z_of_byte xff) with 255. cbn [Z.eqb Pos.eqb negb].
    rewrite (IH (pos + 1) (n + 255) k); try lia.
    + f_equal. f_equal. f_equal; lia.
    + intros i Hi. replace (Z.to_nat (pos + 1) + i)%nat with (Z.to_nat pos + S i)%nat by lia.
      apply Hff. lia.
    + replace (Z.to_nat (pos + 1) + k)%nat with (Z.to_nat pos + S k)%nat by lia. exact Hb.
Qed.

Lemma read_length_ext (fuel : nat) (pre rest : list byte) (r n : Z) :
  0 <= r -> r / 255 < Z.of_nat fuel ->
  read_length fuel (pre ++ length_ext r ++ rest) (len pre) n
  = Ok (Some (len pre + len (length_ext r), n + r)).
Proof.
  intros Hr Hfuel. pose proof (len_nonneg pre).
  assert (H0 : 0 <= r / 255) by (apply Z.div_pos; lia).
  rewrite (read_length_run fuel _ (len pre) n (Z.to_nat (r / 255))
             (byte_of_Z (r mod 255))); try lia.
  - rewrite length_ext_len by lia. f_equal. f_equal. f_equal; [lia|].
    rewrite Z2Nat.id by lia. rewrite Z_of_byte_of_Z.
    rewrite (Z.mod_small (r mod 255)) by dlia. dlia.
  - intros i Hi. unfold len. rewrite Nat2Z.id.
    rewrite lookup_app_r by lia.
    replace (length pre + i - length pre)%nat with i by lia.
    unfold length_ext. rewrite <- app_assoc.
    rewrite lookup_app_l by (rewrite length_replicate; lia).
    apply lookup_replicate_2. lia.
  - unfold len. rewrite Nat2Z.id. rewrite lookup_app_r by lia.
    replace (length pre + Z.to_nat (r / 255) - length pre)%nat
      with (Z.to_nat (r / 255)) by lia.
    unfold length_ext. rewrite <- app_assoc.
    rewrite lookup_app_r by (rewrite length_replicate; lia).
    rewrite length_replicate, Nat.sub_diag. reflexivity.
  - rewrite Z_of_byte_of_Z. rewrite (Z.mod_small (r mod 255)) by dlia. dlia.
Qed.

Lemma read_opt_ext (fuel : nat) (pre rest : list byte) (n : Z) :
  0 <= n -> len (opt_ext n) <= Z.of_nat fuel ->
  (if nibble n =? 15
   then read_length fuel (pre ++ opt_ext n ++ rest) (len pre) (nibble n)
   else Ok (Some (len pre, nibble n)))
  = Ok (Some (len pre + len (opt_ext n), n)).
Proof.
  intros Hn Hfuel. rewrite opt_ext_len in Hfuel by lia.
  unfold nibble, opt_ext in *. destruct (Z.ltb_spec n 15) as [Hlt|Hge].
  - destruct (Z.leb_spec 15 n); [lia|].
    destruct (Z.eqb_spec n 15); [lia|]. rewrite len_nil. do 3 f_equal. lia.
  - destruct (Z.leb_spec 15 n); [|lia]. cbn [Z.eqb Pos.eqb].
    rewrite read_length_ext by lia. do 3 f_equal. lia.
Qed.

(** ** The match copy *)

(** The byte loop writes, one by one, bytes that each copy the byte
    [off] places behind the write position. *)
Lemma copy_bytes_spec (count : nat) (d : list byte) (pos ref i off : Z) :
  1 <= off <= pos -> ref + i = pos - off -> pos + Z.of_nat count <= len d ->
  exists d', copy_bytes count d pos ref i = Ok (d', pos + Z.of_nat count)
    /\ len d' = len d
    /\ take (Z.to_nat (pos + Z.of_nat count)) d'
       = lz_extend count (take (Z.to_nat pos) d) off
    /\ drop (Z.to_nat (pos + Z.of_nat count)) d'
       = drop (Z.to_nat (pos + Z.of_nat count)) d.
Proof.
  revert d pos i. induction count as [|count IH]; intros d pos i Hoff Href Hfit.
  - exists d. cbn [copy_bytes lz_extend]. rewrite Z.add_0_r. auto.
  - cbn [copy_bytes lz_extend].
    destruct (lookup_lt_len d (pos - off)) as [b Hb]; [lia|].
    rewrite Href. rewrite (index_ok d (pos - off) b) by (assumption || lia). bstep.
    rewrite store_ok by lia. bstep.
    set (d1 := <[Z.to_nat pos := b]> d).
    assert (Hlen1 : len d1 = len d) by (unfold d1; apply len_insert).
    destruct (IH d1 (pos + 1) (i + 1)) as (d' & Hrun & Hlen & Htake & Hdrop); try lia.
    exists d'. split; [rewrite Hrun; do 2 f_equal; lia|].
    split; [lia|].
    replace (pos + Z.of_nat (S count)) with (pos + 1 + Z.of_nat count) by lia.
    split.
    + rewrite Htake. rewrite len_take by lia.
      rewrite lookup_take_lt by lia. rewrite Hb. f_equal.
      replace (Z.to_nat (pos + 1)) with (S (Z.to_nat pos)) by lia.
      assert (Hd1 : d1 !! Z.to_nat pos = Some b).
      { unfold d1. apply list_lookup_insert_eq. unfold len in *. lia. }
      rewrite (take_S_r _ _ _ Hd1). f_equal.
      unfold d1. apply take_insert_ge. lia.
    + rewrite Hdrop. unfold d1. apply drop_insert_lt. lia.
Qed.

(** Without overlap the extension is the plain copy of a chunk. *)
Lemma lz_extend_chunk (count : nat) (out : list byte) (off : Z) :
  Z.of_nat count <= off <= len out ->
  lz_extend count out off
  = out ++ take count (drop (Z.to_nat (len out - off)) out).
Proof.
  revert out. induction count as [|count IH]; intros out H.
  - cbn [lz_extend]. rewrite take_0, app_nil_r. reflexivity.
  - cbn [lz_extend].
    destruct (lookup_lt_len out (len out - off)) as [b Hb]; [lia|].
    rewrite Hb. rewrite IH by (rewrite len_app, len_cons, len_nil; lia).
    rewrite <- app_assoc. f_equal.
    rewrite (drop_S _ _ _ Hb). cbn [take app]. f_equal.
    rewrite len_app, len_cons, len_nil.
    replace (Z.to_nat (len out + (1 + 0) - off))
      with (S (Z.to_nat (len out - off))) by lia.
    rewrite drop_app_le by (unfold len in *; lia).
    rewrite take_app_le; [reflexivity|].
    rewrite length_drop. unfold len in *. lia.
Qed.

(** ** One decoded sequence *)

Lemma slice_middle {A} (a b c : list A) (lo hi : Z) :
  lo = len a -> hi = len a + len b -> slice (a ++ b ++ c) lo hi = Ok b.
Proof.
  intros -> ->. pose proof (len_nonneg a). pose proof (len_nonneg b).
  pose proof (len_nonneg c).
  rewrite slice_ok by (rewrite ?len_app; lia). f_equal.
  unfold len. rewrite Nat2Z.id, drop_app_length.
  replace (Z.to_nat (Z.of_nat (length a) + Z.of_nat (length b) - Z.of_nat (length a)))
    with (length b) by lia.
  apply take_app_length.
Qed.

Lemma slice_from_app {A} (a b : list A) (lo : Z) :
  lo = len a -> slice_from (a ++ b) lo = Ok b.
Proof.
  intros ->. pose proof (len_nonneg a). pose proof (len_nonneg b).
  rewrite slice_from_ok by (rewrite len_app; lia). f_equal.
  unfold len. rewrite Nat2Z.id. apply drop_app_length.
Qed.

Lemma index_middle {A} (a c : list A) (x : A) (i : Z) :
  i = len a -> index (a ++ x :: c) i = Ok x.
Proof.
  intros ->. apply index_ok; [apply len_nonneg|].
  unfold len. rewrite Nat2Z.id. now apply list_lookup_middle.
Qed.

Lemma len_zero_nil {A} (l : list A) : len l = 0 -> l = [].
Proof.
  destruct l; [reflexivity|]. rewrite len_cons. pose proof (len_nonneg l). lia.
Qed.

(** The first half of the loop body on the bytes of a sequence: the
    literals land at [dp]; the body returns when nothing follows them. *)
Lemma decode_literals_spec (C pre lits rest d : list byte) (tok : byte) (dp : Z) :
  C = pre ++ [tok] ++ opt_ext (len lits) ++ lits ++ rest ->
  Z.shiftr (Z_of_byte tok) 4 = nibble (len lits) ->
  0 <= dp < len d -> dp + len lits <= len d ->
  decode_literals C
    {| d_srcPos := len pre; d_dstPos := dp; d_dst := d |}
  = Ok (match rest with
        | [] => inr (dp + len lits, None, write_at d dp lits)
        | _ => inl (tok, {| d_srcPos := len pre + 1 + len (opt_ext (len lits))
                                        + len lits;
                            d_dstPos := dp + len lits;
                            d_dst := write_at d dp lits |})
        end).
Proof.
  intros -> Htok Hdp Hfit. unfold decode_literals. cbn [d_srcPos d_dstPos d_dst].
  set (L := len lits) in *. set (ext := opt_ext L) in *.
  set (C := pre ++ [tok] ++ ext ++ lits ++ rest).
  pose proof (len_nonneg pre). pose proof (len_nonneg lits).
  pose proof (len_nonneg rest). pose proof (len_nonneg ext).
  assert (HC : len C = len pre + 1 + len ext + L + len rest).
  { unfold C. rewrite !len_app, len_cons, len_nil. fold L. lia. }
  destruct (Z.leb_spec (len d) dp); [lia|].
  assert (Hidx : index C (len pre) = Ok tok)
    by (unfold C; cbn [app]; now apply index_middle).
  rewrite Hidx. bstep. rewrite Htok.
  assert (Hread :
    (if nibble L =? 15
     then read_length (S (length C)) C (len pre + 1) (nibble L)
     else Ok (Some (len pre + 1, nibble L)))
    = Ok (Some (len pre + 1 + len ext, L))).
  { replace (len pre + 1) with (len (pre ++ [tok]))
      by (rewrite len_app, len_cons, len_nil; lia).
    replace C with ((pre ++ [tok]) ++ opt_ext L ++ (lits ++ rest))
      by (unfold C, ext; rewrite <- !app_assoc; reflexivity).
    apply read_opt_ext; [lia|].
    fold ext. rewrite !length_app. cbn [length]. unfold len in *. lia. }
  rewrite Hread. bstep.
  destruct (Z.ltb_spec (len C) (len pre + 1 + len ext + L)); [lia|].
  destruct (Z.ltb_spec (len d) (dp + L)); [lia|].
  assert (Hcopy :
    (if 0 <? L
     then lits0 ← slice C (len pre + 1 + len ext) (len pre + 1 + len ext + L);
          dst ← copy_at d dp lits0;
          Ok (dst, dp + L, len pre + 1 + len ext + L)
     else Ok (d, dp, len pre + 1 + len ext))
    = Ok (write_at d dp lits, dp + L, len pre + 1 + len ext + L)).
  { destruct (Z.ltb_spec 0 L).
    - replace C with ((pre ++ [tok] ++ ext) ++ lits ++ rest)
        by (unfold C; rewrite <- !app_assoc; reflexivity).
      rewrite slice_middle
        by (rewrite ?len_app, ?len_cons, ?len_nil; fold L; lia).
      bstep. rewrite copy_at_write_at by (fold L; lia). reflexivity.
    - assert (lits = []) as -> by (apply len_zero_nil; fold L; lia).
      rewrite write_at_nil. do 2 f_equal; [f_equal|]; lia. }
  rewrite Hcopy. bstep.
  destruct rest as [|r rest].
  - rewrite len_nil in HC.
    destruct (Z.leb_spec (len C) (len pre + 1 + len ext + L)); [reflexivity|lia].
  - rewrite len_cons in HC. pose proof (len_nonneg rest).
    destruct (Z.leb_spec (len C) (len pre + 1 + len ext + L)); [lia|reflexivity].
Qed.

Lemma le_uint16_cons (a b : byte) (l : list byte) :
  le_uint16 (a :: b :: l) = Ok (Z.lor (Z_of_byte a) (Z.shiftl (Z_of_byte b) 8)).
Proof. reflexivity. Qed.

(** The second half of the loop body on the bytes of a match: the output
    grows by the match, copied from [off] places back. *)
Lemma decode_match_spec (C pre rest d : list byte) (tok : byte) (off mc dp : Z) :
  C = pre ++ [byte_of_Z off; byte_of_Z (Z.shiftr off 8)] ++ opt_ext mc ++ rest ->
  Z.land (Z_of_byte tok) 15 = nibble mc -> 0 <= mc ->
  1 <= off <= dp -> off < 65536 -> dp + mc + minMatchLength <= len d ->
  exists d',
    decode_match C
      tok {| d_srcPos := len pre; d_dstPos := dp; d_dst := d |}
    = Ok (inl {| d_srcPos := len pre + 2 + len (opt_ext mc);
                 d_dstPos := dp + mc + minMatchLength;
                 d_dst := d' |})
    /\ len d' = len d
    /\ take (Z.to_nat (dp + mc + minMatchLength)) d'
       = lz_extend (Z.to_nat (mc + minMatchLength)) (take (Z.to_nat dp) d) off.
Proof.
  intros -> Htok Hmc Hoff Hoff16 Hfit. unfold decode_match.
  cbn [d_srcPos d_dstPos d_dst].
  set (ext := opt_ext mc) in *.
  set (ob := [byte_of_Z off; byte_of_Z (Z.shiftr off 8)]).
  set (C := pre ++ ob ++ ext ++ rest).
  pose proof (len_nonneg pre). pose proof (len_nonneg rest).
  pose proof (len_nonneg ext).
  assert (HC : len C = len pre + 2 + len ext + len rest).
  { unfold C, ob. rewrite !len_app, !len_cons, len_nil. lia. }
  destruct (Z.ltb_spec (len C) (len pre + 2)); [lia|].
  assert (Hsl : slice_from C (len pre) = Ok (ob ++ ext ++ rest))
    by (unfold C; now apply slice_from_app).
  rewrite Hsl. bstep. unfold ob at 1. cbn [app].
  rewrite le_uint16_cons, le16_roundtrip by lia. bstep.
  destruct (Z.eqb_spec off 0); [lia|].
  destruct (Z.ltb_spec dp off); [lia|]. cbn [orb].
  change 15 with 15 in Htok. rewrite Htok.
  assert (Hread :
    (if nibble mc =? 15
     then read_length (S (length C)) C (len pre + 2) (nibble mc)
     else Ok (Some (len pre + 2, nibble mc)))
    = Ok (Some (len pre + 2 + len ext, mc))).
  { replace (len pre + 2) with (len (pre ++ ob))
      by (unfold ob; rewrite len_app, !len_cons, len_nil; lia).
    replace C with ((pre ++ ob) ++ opt_ext mc ++ rest)
      by (unfold C, ext; rewrite <- !app_assoc; reflexivity).
    apply read_opt_ext; [lia|].
    fold ext. rewrite !length_app. unfold len in *. lia. }
  rewrite Hread. bstep.
  unfold minMatchLength in *.
  destruct (Z.ltb_spec (len d) (dp + (mc + 4))); [lia|].
  destruct (Z.ltb_spec (dp - off) 0); [lia|].
  replace (dp + (mc + 4)) with (dp + mc + 4) by lia.
  destruct (Z.leb_spec (mc + 4) off) as [Hbulk|Hrun].
  - rewrite slice_ok by lia. bstep.
    replace (dp - off + (mc + 4) - (dp - off)) with (mc + 4) by lia.
    set (chunk := take (Z.to_nat (mc + 4)) (drop (Z.to_nat (dp - off)) d)).
    assert (Hchunk : len chunk = mc + 4).
    { unfold chunk. rewrite len_take; [lia|]. rewrite len_drop; lia. }
    rewrite copy_at_write_at by lia. bstep.
    exists (write_at d dp chunk). split; [reflexivity|].
    split; [apply write_at_length; lia|].
    replace (dp + mc + 4) with (dp + len chunk) by lia.
    rewrite write_at_take by lia.
    rewrite lz_extend_chunk by (rewrite len_take; lia).
    f_equal. rewrite len_take by lia. unfold chunk.
    rewrite skipn_firstn_comm, take_take. f_equal. lia.
  - destruct (copy_bytes_spec (Z.to_nat (mc + 4)) d dp (dp - off) 0 off)
      as (d' & Hrun' & Hlen & Htake & _); try lia.
    rewrite Hrun'. bstep. exists d'.
    rewrite Z2Nat.id in * by lia.
    replace (dp + (mc + 4)) with (dp + mc + 4) in * by lia.
    split; [reflexivity|]. split; [exact Hlen|]. exact Htake.
Qed.

(** ** The decode loop on an encoded block *)

Lemma encode_block_cons (s : sequence) (seqs : list sequence) (last : list byte) :
  encode_block (s :: seqs) last = encode_sequence s ++ encode_block seqs last.
Proof.
  unfold encode_block. cbn [map concat]. now rewrite <- app_assoc.
Qed.

Lemma decode_loop_block (seqs : list sequence) :
  forall (C pre out d last : list byte) (fuel : nat),
    C = pre ++ encode_block seqs last ->
    valid_seqs (len out) seqs ->
    take (Z.to_nat (len out)) d = out ->
    len (play out seqs ++ last) <= len d ->
    len (encode_block seqs last) < Z.of_nat fuel ->
    exists d',
      decode_loop fuel C
        {| d_srcPos := len pre; d_dstPos := len out; d_dst := d |}
      = Ok (len (play out seqs ++ last), None, d')
      /\ len d' = len d
      /\ take (Z.to_nat (len (play out seqs ++ last))) d' = play out seqs ++ last.
Proof.
  induction seqs as [|s seqs IH];
    intros C pre out d last fuel HC Hval Hout Hfit Hfuel.
  - (* only the trailing literals *)
    cbn [play] in *. unfold encode_block in *. cbn [map concat app] in *.
    pose proof (len_nonneg out). pose proof (len_nonneg last).
    pose proof (len_nonneg pre).
    destruct fuel as [|fuel]; [pose proof (len_nonneg (encode_last last)); lia|].
    cbn [decode_loop d_srcPos d_dstPos d_dst].
    destruct last as [|b last'].
    + cbn [encode_last] in HC. rewrite !app_nil_r in *. subst C.
      destruct (Z.ltb_spec (len pre) (len pre)); [lia|].
      exists d. split; [reflexivity|]. split; [reflexivity|]. exact Hout.
    + set (last := b :: last') in *.
      assert (Henc : encode_last last
                     = [byte_of_Z (literal_token (len last))]
                       ++ opt_ext (len last) ++ last ++ [])
        by (rewrite app_nil_r; reflexivity).
      rewrite Henc in HC. rewrite len_app in Hfit.
      assert (Hpos : 0 < len last)
        by (unfold last; rewrite len_cons; pose proof (len_nonneg last'); lia).
      destruct (Z.ltb_spec (len pre) (len C)) as [_|Hbad].
      2:{ rewrite HC, !len_app, len_cons, !len_nil in Hbad.
          pose proof (opt_ext_nonneg (len last)). lia. }
      unfold decode_sequence.
      rewrite (decode_literals_spec C pre last [] d _ (len out) HC)
        by (rewrite ?token_last_len; lia).
      bstep. exists (write_at d (len out) last). rewrite len_app.
      split; [reflexivity|]. split; [apply write_at_length; lia|].
      rewrite write_at_take by lia. now rewrite Hout.
  - (* a sequence with a match, then the rest *)
    cbn [play valid_seqs] in *. destruct Hval as (Hoff & Hmax & HM & Hval).
    unfold maxOffset, minMatchLength in Hmax, HM.
    set (lits := s_lits s) in *. set (off := s_offset s) in *.
    set (M := s_matchLen s) in *.
    set (out1 := lz_extend (Z.to_nat M) (out ++ lits) off) in *.
    pose proof (len_nonneg out). pose proof (len_nonneg lits).
    pose proof (len_nonneg pre). pose proof (len_nonneg last).
    assert (Hlen1 : len out1 = len out + len lits + M).
    { unfold out1. rewrite lz_extend_len; rewrite len_app; lia. }
    assert (Hgrow : len out1 <= len (play out1 seqs ++ last)).
    { rewrite len_app. rewrite <- Hlen1 in Hval. apply play_len in Hval. lia. }
    rewrite encode_block_cons in *.
    set (tail := encode_block seqs last) in *.
    pose proof (len_nonneg tail).
    set (tok := byte_of_Z (Z.lor (literal_token (len lits))
                                 (match_nibble (M - minMatchLength)))).
    set (mext := opt_ext (M - minMatchLength)) in *.
    set (lext := opt_ext (len lits)) in *.
    set (ob := [byte_of_Z off; byte_of_Z (Z.shiftr off 8)]).
    assert (HencS : encode_sequence s = [tok] ++ lext ++ lits ++ ob ++ mext)
      by reflexivity.
    assert (HlenS : len (encode_sequence s) = 1 + len lext + len lits + 2 + len mext)
      by (rewrite encode_sequence_len; reflexivity).
    rewrite len_app, HlenS in Hfuel.
    pose proof (len_nonneg lext). pose proof (len_nonneg mext).
    destruct fuel as [|fuel]; [lia|].
    cbn [decode_loop d_srcPos d_dstPos d_dst].
    destruct (Z.ltb_spec (len pre) (len C)) as [_|Hbad].
    2:{ rewrite HC, !len_app, HlenS in Hbad. lia. }
    unfold decode_sequence.
    assert (HC1 : C = pre ++ [tok] ++ opt_ext (len lits) ++ lits
                      ++ (ob ++ mext ++ tail))
      by (rewrite HC, HencS; unfold lext; rewrite <- !app_assoc; reflexivity).
    rewrite (decode_literals_spec C pre lits _ d tok (len out) HC1)
      by (unfold tok, minMatchLength; rewrite ?token_literal_len; lia).
    unfold ob at 1. cbn [app]. bstep. fold lext.
    set (pre1 := pre ++ [tok] ++ lext ++ lits).
    assert (Hpre1 : len pre1 = len pre + 1 + len lext + len lits).
    { unfold pre1. rewrite !len_app, len_cons, len_nil. lia. }
    rewrite <- Hpre1.
    assert (HC2 : C = pre1 ++ [byte_of_Z off; byte_of_Z (Z.shiftr off 8)]
                      ++ opt_ext (M - minMatchLength) ++ tail)
      by (rewrite HC, HencS; unfold pre1, ob, mext; rewrite <- !app_assoc;
          reflexivity).
    set (d1 := write_at d (len out) lits).
    assert (Hd1len : len d1 = len d) by (apply write_at_length; lia).
    assert (Hd1 : take (Z.to_nat (len out + len lits)) d1 = out ++ lits).
    { unfold d1. rewrite write_at_take by lia. now rewrite Hout. }
    destruct (decode_match_spec C pre1 tail d1 tok off (M - minMatchLength)
                (len out + len lits) HC2)
      as (d2 & Hdm & Hd2len & Hd2);
      try (unfold minMatchLength; lia).
    { unfold tok, minMatchLength. apply token_match_len; lia. }
    rewrite Hdm. bstep. fold mext.
    replace (len out + len lits + (M - minMatchLength) + minMatchLength)
      with (len out1) in * by lia.
    replace (M - minMatchLength + minMatchLength) with M in Hd2 by lia.
    rewrite Hd1 in Hd2. fold out1 in Hd2.
    set (pre2 := pre1 ++ ob ++ mext).
    assert (Hpre2 : len pre2 = len pre1 + 2 + len mext).
    { unfold pre2, ob. rewrite !len_app, !len_cons, len_nil. lia. }
    rewrite <- Hpre2.
    assert (HC3 : C = pre2 ++ tail)
      by (rewrite HC2; unfold pre2, ob, mext; rewrite <- !app_assoc; reflexivity).
    assert (Hval1 : valid_seqs (len out1) seqs) by (rewrite Hlen1; exact Hval).
    assert (Hfit1 : len (play out1 seqs ++ last) <= len d2) by lia.
    assert (Hfuel1 : len tail < Z.of_nat fuel) by lia.
    destruct (IH C pre2 out1 d2 last fuel HC3 Hval1 Hd2 Hfit1 Hfuel1)
      as (d' & Hrun & Hlen' & Htake').
    exists d'. split; [exact Hrun|]. split; [lia | exact Htake'].
Qed.

(** What was compressed into a valid list of sequences decompresses to
    what the sequences replay to. *)
Theorem decompressBlock_encode_block (seqs : list sequence) (last d : list byte) :
  valid_seqs 0 seqs ->
  len (play [] seqs ++ last) <= len d ->
  exists d',
    decompressBlock (encode_block seqs last) d
    = Ok (len (play [] seqs ++ last), None, d')
    /\ len d' = len d
    /\ take (Z.to_nat (len (play [] seqs ++ last))) d' = play [] seqs ++ last.
Proof.
  intros Hval Hfit. unfold decompressBlock.
  apply (decode_loop_block seqs _ [] [] d last); try assumption.
  - reflexivity.
  - reflexivity.
  - unfold len. lia.
Qed.

(** The block codec round trip: a block compressed into a worst-case
    destination decompresses, into any buffer that holds it, to itself. *)
Theorem block_roundtrip (src dst d : list byte) (table : list Z) :
  len table = hashSize ->
  len src < emptySlot ->
  len src + len src / 255 + 16 <= len dst ->
  len src <= len d ->
  exists n c d',
    compressBlock src dst table = Ok (n, None, c)
    /\ 0 <= n <= len src + len src / 255 + 2
    /\ len c = len dst
    /\ (src <> [] -> 0 < n)
    /\ decompressBlock (take (Z.to_nat n) c) d = Ok (len src, None, d')
    /\ len d' = len d
    /\ take (Z.to_nat (len src)) d' = src.
Proof.
  intros Htab Hsmall Hroom Hd.
  destruct (compressBlock_ok src dst table Htab Hsmall Hroom)
    as (seqs & last & Hc & Hval & Hplay & Hn & Hpos).
  set (enc := encode_block seqs last) in *.
  pose proof (len_nonneg enc). pose proof (len_nonneg src).
  exists (len enc), (write_at dst 0 enc).
  destruct (decompressBlock_encode_block seqs last d Hval) as (d' & Hdec & Hlen & Htake).
  { rewrite Hplay. exact Hd. }
  rewrite Hplay in *. exists d'.
  split; [exact Hc|]. split; [lia|].
  split; [apply write_at_length; dlia|]. split; [exact Hpos|].
  replace (take (Z.to_nat (len enc)) (write_at dst 0 enc)) with enc.
  - auto.
  - replace (len enc) with (0 + len enc) at 1 by lia.
    rewrite write_at_take by dlia. reflexivity.
Qed.

(** ** The states at the head of the scan loop *)

Lemma bind_Ok {A B} (m : run A) (k : A -> run B) (b : B) :
  m ≫= k = Ok b -> exists a, m = Ok a /\ k a = Ok b.
Proof.
  destruct m as [a| |]; cbn [mbind run_bind]; try discriminate. eauto.
Qed.

Lemma emit_sequence_inl (src : list byte) (st st' : cstate) (ref M : Z) :
  emit_sequence src st ref M = Ok (inl st') ->
  srcPos st' = srcPos st + M /\ anchor st' = srcPos st + M
  /\ hashTable st' = hashTable st.
Proof.
  unfold emit_sequence.
  destruct (len (dstBuf st) <? dstPos st + 1 + (srcPos st - anchor st) + 2);
    [discriminate|].
  intros H.
  apply bind_Ok in H as (d1 & _ & H).
  apply bind_Ok in H as ([d2 p2] & _ & H).
  apply bind_Ok in H as ([d3 p3] & _ & H).
  apply bind_Ok in H as (d4 & _ & H).
  apply bind_Ok in H as (d5 & _ & H).
  apply bind_Ok in H as ([d6 p6] & _ & H).
  injection H as <-. auto.
Qed.

Lemma scan_reach_inv (src dst : list byte) (table : list Z) (st : cstate) :
  len table = hashSize -> len src < emptySlot ->
  scan_reach src dst table st ->
  0 <= srcPos st /\ table_ok (hashTable st) (srcPos st).
Proof.
  intros Htab Hsmall Hreach. induction Hreach as [|st st' _ IH Hloop Hbody].
  - split; [simpl; lia|]. apply table_ok_init. exact Htab.
  - destruct IH as [Hpos Htable]. unfold minMatchLength in Hloop.
    destruct (find_match_spec src (srcPos st) (hashTable st))
      as (table' & r & Hfm & Htab' & Hr); try assumption; try lia.
    unfold scan_body in Hbody. rewrite Hfm in Hbody. cbn [mbind run_bind] in Hbody.
    destruct r as [[ref M]|].
    + apply emit_sequence_inl in Hbody as (Hs & _ & Ht). cbn in Hs, Ht.
      rewrite Hs, Ht. destruct Hr as (_ & _ & HM & _). unfold minMatchLength in HM.
      split; [lia|]. apply (table_ok_mono _ (srcPos st + 1)); [lia|exact Htab'].
    + injection Hbody as <-. cbn. split; [lia|exact Htab'].
Qed.

(** C10: at the head of every iteration of the scan loop of a block of
    at most 4 MiB, every hash-table cell that is not the sentinel holds a
    position strictly below [srcPos]; hence the candidate of every match
    the loop goes on to emit lies behind [srcPos] in the same block, and
    its offset [srcPos - ref] is in [1, 65535]. *)
Theorem hash_table_positions_behind (src dst : list byte) (table : list Z)
    (st : cstate) :
  len src <= maxBlockSize ->
  len table = hashSize ->
  scan_reach src dst table st ->
  (forall (i : nat) (e : Z),
      hashTable st !! i = Some e -> e <> emptySlot -> 0 <= e < srcPos st)
  /\ (forall (table' : list Z) (ref M : Z),
        srcPos st <= len src - minMatchLength ->
        find_match src (srcPos st) (hashTable st) = Ok (table', Some (ref, M)) ->
        1 <= srcPos st - ref <= 65535
        /\ 0 <= ref < srcPos st
        /\ srcPos st + M <= len src
        /\ forall k, 0 <= k < M ->
             src !! Z.to_nat (srcPos st + k) = src !! Z.to_nat (ref + k)).
Proof.
  intros Hblock Htab Hreach.
  assert (Hsmall : len src < emptySlot)
    by (unfold maxBlockSize, emptySlot in *; lia).
  destruct (scan_reach_inv src dst table st Htab Hsmall Hreach) as [Hpos [Hlen Hcells]].
  split.
  - intros i e Hl Hne. destruct (Hcells i e Hl); [contradiction|assumption].
  - intros table' ref M Hloop Hfm. unfold minMatchLength in Hloop.
    destruct (find_match_spec src (srcPos st) (hashTable st))
      as (t2 & r & Hfm2 & _ & Hr); try lia; [split; assumption|].
    rewrite Hfm in Hfm2. injection Hfm2 as <- <-.
    destruct Hr as (Href & Hoff & HM & HMfit & _ & _ & Heq).
    unfold maxOffset in Hoff. repeat split; try lia. exact Heq.
Qed.

(** ** Overlapping matches *)

Lemma lz_extend_prefix (count : nat) (out : list byte) (off : Z) :
  take (length out) (lz_extend count out off) = out.
Proof.
  revert out. induction count as [|count IH]; intros out; cbn [lz_extend].
  - apply firstn_all.
  - destruct (out !! Z.to_nat (len out - off)) as [b|]; [|apply firstn_all].
    specialize (IH (out ++ [b])). rewrite length_app in IH.
    apply (f_equal (take (length out))) in IH.
    rewrite take_take in IH. rewrite Nat.min_l in IH by lia.
    rewrite IH. apply take_app_length.
Qed.

Lemma lookup_via_prefix (R out : list byte) (i : nat) :
  take (length out) R = out -> (i < length out)%nat -> R !! i = out !! i.
Proof.
  intros H Hi. rewrite <- H. symmetry. apply lookup_take_lt. exact Hi.
Qed.

(** Every byte a match adds is the byte [off] places behind it in the
    output, which may itself be a byte the match added. *)
Lemma lz_extend_lookup (count : nat) (out : list byte) (off : Z) (i : Z) :
  1 <= off <= len out -> 0 <= i < Z.of_nat count ->
  lz_extend count out off !! Z.to_nat (len out + i)
  = lz_extend count out off !! Z.to_nat (len out + i - off).
Proof.
  revert out i. induction count as [|count IH]; intros out i Hoff Hi; [lia|].
  cbn [lz_extend].
  destruct (lookup_lt_len out (len out - off)) as [b Hb]; [lia|].
  rewrite Hb.
  pose proof (lz_extend_prefix count (out ++ [b]) off) as Hpre.
  destruct (Z.eq_dec i 0) as [->|Hne].
  - rewrite Z.add_0_r.
    rewrite (lookup_via_prefix _ _ (Z.to_nat (len out)) Hpre)
      by (rewrite length_app; cbn [length]; unfold len; lia).
    rewrite (lookup_via_prefix _ _ (Z.to_nat (len out - off)) Hpre)
      by (rewrite length_app; cbn [length]; unfold len in *; lia).
    rewrite (lookup_app_l out [b] (Z.to_nat (len out - off)))
      by (unfold len in *; lia).
    rewrite Hb. unfold len. rewrite Nat2Z.id. now apply list_lookup_middle.
  - specialize (IH (out ++ [b]) (i - 1)).
    rewrite len_app, len_cons, len_nil in IH.
    replace (len out + (1 + 0) + (i - 1)) with (len out + i) in IH by lia.
    apply IH; lia.
Qed.

(** ** Corrupted offsets *)

Lemma read_length_progress (fuel : nat) (src : list byte) (pos n pos' n' : Z) :
  read_length fuel src pos n = Ok (Some (pos', n')) ->
  pos < pos' /\ pos' <= len src /\ n <= n'.
Proof.
  revert pos n. induction fuel as [|fuel IH]; intros pos n H; [discriminate|].
  cbn [read_length] in H.
  destruct (Z.leb_spec (len src) pos); [discriminate|].
  apply bind_Ok in H as (b & Hb & H).
  pose proof (Z_of_byte_range b).
  destruct (negb (Z_of_byte b =? 255)).
  - injection H as <- <-. lia.
  - apply IH in H. lia.
Qed.

Lemma decode_literals_inl (src : list byte) (st st1 : dstate) (tok : byte) :
  decode_literals src st = Ok (inl (tok, st1)) ->
  d_srcPos st < d_srcPos st1 /\ d_srcPos st1 < len src
  /\ d_dstPos st <= d_dstPos st1.
Proof.
  unfold decode_literals.
  destruct (len (d_dst st) <=? d_dstPos st); [discriminate|].
  intros H. apply bind_Ok in H as (token & Htok & H).
  pose proof (Z_of_byte_range token) as Hr.
  assert (Hlit : 0 <= Z.shiftr (Z_of_byte token) 4)
    by (apply Z.shiftr_nonneg; lia).
  apply bind_Ok in H as (r & Hread & H).
  destruct r as [[spos litLen]|]; [|discriminate].
  assert (Hsp : d_srcPos st + 1 <= spos /\ Z.shiftr (Z_of_byte token) 4 <= litLen).
  { destruct (Z.shiftr (Z_of_byte token) 4 =? 15).
    - apply read_length_progress in Hread. lia.
    - injection Hread as <- <-. lia. }
  destruct (len src <? spos + litLen); [discriminate|].
  destruct (len (d_dst st) <? d_dstPos st + litLen); [discriminate|].
  apply bind_Ok in H as ([[d1 dp1] sp1] & Hcopy & H).
  assert (Hc : spos <= sp1 /\ d_dstPos st <= dp1).
  { destruct (Z.ltb_spec 0 litLen).
    - apply bind_Ok in Hcopy as (l & _ & Hcopy).
      apply bind_Ok in Hcopy as (d2 & _ & Hcopy).
      injection Hcopy as <- <- <-. lia.
    - injection Hcopy as <- <- <-. lia. }
  destruct (Z.leb_spec (len src) sp1); [discriminate|].
  injection H as <- <-. cbn. lia.
Qed.

Lemma decode_literals_inr (src : list byte) (st : dstate) (n : Z) (e : error)
      (d : list byte) :
  decode_literals src st = Ok (inr (n, Some e, d)) -> e <> ErrCorrupted.
Proof.
  unfold decode_literals.
  destruct (len (d_dst st) <=? d_dstPos st); [intros [= <- <- <-]; discriminate|].
  intros H. apply bind_Ok in H as (token & _ & H).
  apply bind_Ok in H as (r & _ & H).
  destruct r as [[spos litLen]|]; [|injection H as <- <- <-; discriminate].
  destruct (len src <? spos + litLen); [injection H as <- <- <-; discriminate|].
  destruct (len (d_dst st) <? d_dstPos st + litLen);
    [injection H as <- <- <-; discriminate|].
  apply bind_Ok in H as ([[d1 dp1] sp1] & _ & H).
  destruct (len src <=? sp1); discriminate.
Qed.

Lemma decode_match_inl (src : list byte) (tok : byte) (st st2 : dstate) :
  decode_match src tok st = Ok (inl st2) -> d_srcPos st < d_srcPos st2.
Proof.
  unfold decode_match.
  destruct (len src <? d_srcPos st + 2); [discriminate|].
  intros H. apply bind_Ok in H as (w & _ & H).
  apply bind_Ok in H as (off & _ & H).
  destruct ((off =? 0) || (d_dstPos st <? off)); [discriminate|].
  apply bind_Ok in H as (r & Hread & H).
  destruct r as [[spos matchLen]|]; [|discriminate].
  assert (Hsp : d_srcPos st + 2 <= spos).
  { destruct (Z.land (Z_of_byte tok) 15 =? 15).
    - apply read_length_progress in Hread. lia.
    - injection Hread as <- <-. lia. }
  destruct (len (d_dst st) <? d_dstPos st + (matchLen + minMatchLength));
    [discriminate|].
  destruct (d_dstPos st - off <? 0); [discriminate|].
  apply bind_Ok in H as ([d1 dp1] & _ & H).
  injection H as <-. cbn. lia.
Qed.

(** [decode_match] returns the corrupted-input error exactly on a bad
    offset, and then with the output position it was entered with. *)
Lemma decode_match_corrupted (src : list byte) (tok : byte) (st : dstate)
      (n : Z) (d : list byte) :
  0 <= d_srcPos st ->
  decode_match src tok st = Ok (inr (n, Some ErrCorrupted, d))
  <-> bad_offset_at src st /\ n = d_dstPos st /\ d = d_dst st.
Proof.
  intros Hpos. unfold decode_match, bad_offset_at.
  destruct (Z.ltb_spec (len src) (d_srcPos st + 2)) as [Hshort|Hok].
  { split; [discriminate|]. intros [[H _] _]. lia. }
  rewrite slice_from_ok by lia. bstep.
  destruct (le_uint16 (drop (Z.to_nat (d_srcPos st)) src)) as [off| |] eqn:Hoff;
    bstep.
  2,3: split; [discriminate|]; intros [[_ [o [Ho _]]] _]; discriminate.
  destruct (Z.eqb_spec off 0) as [H0|H0]; cbn [orb].
  { split.
    - intros [= <- <-]. split; [|auto]. split; [lia|]. exists off. auto.
    - intros (_ & -> & ->). reflexivity. }
  destruct (Z.ltb_spec (d_dstPos st) off) as [Hfar|Hnear].
  { split.
    - intros [= <- <-]. split; [|auto]. split; [lia|]. exists off. auto.
    - intros (_ & -> & ->). reflexivity. }
  split.
  - intros H. exfalso.
    apply bind_Ok in H as (r & _ & H).
    destruct r as [[spos matchLen]|]; [|discriminate].
    destruct (len (d_dst st) <? d_dstPos st + (matchLen + minMatchLength));
      [discriminate|].
    destruct (Z.ltb_spec (d_dstPos st - off) 0); [lia|].
    apply bind_Ok in H as ([d1 dp1] & _ & H). discriminate.
  - intros [[_ [o [Ho Hbad]]] _]. injection Ho as <-. lia.
Qed.

Lemma decode_sequence_progress (src : list byte) (st st' : dstate) :
  decode_sequence src st = Ok (inl st') -> d_srcPos st < d_srcPos st'.
Proof.
  unfold decode_sequence. intros H.
  apply bind_Ok in H as (r & Hlit & H).
  destruct r as [[tok st1]|res]; [|discriminate].
  apply decode_literals_inl in Hlit. apply decode_match_inl in H. lia.
Qed.

(** A loop-head state is where the loop is after as many iterations as
    it took to reach it. *)
Lemma decode_reach_loop (src dst : list byte) (st : dstate) :
  decode_reach src dst st ->
  0 <= d_srcPos st
  /\ exists k : nat, Z.of_nat k <= d_srcPos st
       /\ forall fuel,
            decode_loop (k + fuel) src
              {| d_srcPos := 0; d_dstPos := 0; d_dst := dst |}
            = decode_loop fuel src st.
Proof.
  induction 1 as [|st st' _ [Hpos (k & Hk & Hloop)] Hlt Hseq].
  - split; [simpl; lia|]. exists 0%nat. split; [simpl; lia|]. reflexivity.
  - pose proof (decode_sequence_progress _ _ _ Hseq) as Hadv.
    split; [lia|]. exists (S k). split; [lia|]. intros fuel.
    replace (S k + fuel)%nat with (k + S fuel)%nat by lia.
    rewrite Hloop. cbn [decode_loop].
    destruct (Z.ltb_spec (d_srcPos st) (len src)); [|lia].
    rewrite Hseq. reflexivity.
Qed.

Lemma decode_loop_corrupted (src dst : list byte) (fuel : nat) :
  forall (st : dstate) (n : Z) (d' : list byte),
    decode_reach src dst st ->
    decode_loop fuel src st = Ok (n, Some ErrCorrupted, d') ->
    exists st0 tok st1,
      decode_reach src dst st0 /\ d_srcPos st0 < len src
      /\ decode_literals src st0 = Ok (inl (tok, st1))
      /\ bad_offset_at src st1 /\ n = d_dstPos st1 /\ d' = d_dst st1.
Proof.
  induction fuel as [|fuel IH]; intros st n d' Hreach H; [discriminate|].
  cbn [decode_loop] in H.
  destruct (Z.ltb_spec (d_srcPos st) (len src)) as [Hlt|Hge]; [|discriminate].
  apply bind_Ok in H as (r & Hseq & H). destruct r as [st'|res].
  - apply (IH st'); [|exact H]. now apply (dreach_step src dst st st').
  - injection H as ->. unfold decode_sequence in Hseq.
    apply bind_Ok in Hseq as (r & Hlit & Hseq).
    destruct r as [[tok st1]|res].
    + pose proof (decode_literals_inl _ _ _ _ Hlit) as (Ha & _ & _).
      destruct (decode_reach_loop _ _ _ Hreach) as [Hpos _].
      apply decode_match_corrupted in Hseq; [|lia].
      exists st, tok, st1. tauto.
    + injection Hseq as ->. apply decode_literals_inr in Hlit. contradiction.
Qed.

(** C7, as the code has it: [decompressBlock] returns the
    corrupted-input error if and only if the loop reaches a sequence
    whose offset, read after its literals, is zero or larger than the
    number of bytes decoded by then; the count it returns is that number,
    which includes the literals of the failing sequence. *)
Theorem corrupted_iff_bad_offset (src dst : list byte) (n : Z) (d' : list byte) :
  decompressBlock src dst = Ok (n, Some ErrCorrupted, d')
  <-> exists st tok st1,
        decode_reach src dst st /\ d_srcPos st < len src
        /\ decode_literals src st = Ok (inl (tok, st1))
        /\ bad_offset_at src st1
        /\ n = d_dstPos st1 /\ d' = d_dst st1 /\ d_dstPos st <= n.
Proof.
  unfold decompressBlock. split.
  - intros H. apply (decode_loop_corrupted src dst) in H; [|constructor].
    destruct H as (st & tok & st1 & Hr & Hlt & Hlit & Hbad & -> & ->).
    exists st, tok, st1. pose proof (decode_literals_inl _ _ _ _ Hlit). tauto.
  - intros (st & tok & st1 & Hreach & Hlt & Hlit & Hbad & -> & -> & _).
    destruct (decode_reach_loop _ _ _ Hreach) as [Hpos (k & Hk & Hloop)].
    pose proof (decode_literals_inl _ _ _ _ Hlit) as (Ha & _ & _).
    replace (S (length src)) with (k + S (length src - k))%nat
      by (unfold len in *; lia).
    rewrite Hloop. cbn [decode_loop].
    destruct (Z.ltb_spec (d_srcPos st) (len src)); [|lia].
    unfold decode_sequence. rewrite Hlit. bstep.
    assert (Hm : decode_match src tok st1
                 = Ok (inr (d_dstPos st1, Some ErrCorrupted, d_dst st1)))
      by (apply decode_match_corrupted; [lia|auto]).
    rewrite Hm. reflexivity.
Qed.

(** C6: the five bytes that encode one literal ['a'] and a match of
    offset 1 and length 259 decode to 260 bytes ['a']; and for every
    match whose offset is smaller than its length, the decoder leaves
    the earlier output as it is and makes every byte of the match equal
    to the byte [offset] places behind it, a byte of the match itself
    from the [offset]-th on. *)
Theorem overlap_match_replicates :
  decompressBlock [x1f; x61; x01; x00; xf0] (replicate 260 x00)
  = Ok (260, None, replicate 260 x61)
  /\ forall (C pre rest d : list byte) (tok : byte) (off mc dp : Z),
       C = pre ++ [byte_of_Z off; byte_of_Z (Z.shiftr off 8)]
               ++ opt_ext mc ++ rest ->
       Z.land (Z_of_byte tok) 15 = nibble mc -> 0 <= mc ->
       1 <= off <= dp -> off < mc + minMatchLength -> off < 65536 ->
       dp + mc + minMatchLength <= len d ->
       exists d',
         decode_match C tok {| d_srcPos := len pre; d_dstPos := dp; d_dst := d |}
         = Ok (inl {| d_srcPos := len pre + 2 + len (opt_ext mc);
                      d_dstPos := dp + mc + minMatchLength;
                      d_dst := d' |})
         /\ take (Z.to_nat dp) d' = take (Z.to_nat dp) d
         /\ forall i, 0 <= i < mc + minMatchLength ->
              d' !! Z.to_nat (dp + i) = d' !! Z.to_nat (dp + i - off).
Proof.
  split; [vm_compute; reflexivity|].
  intros C pre rest d tok off mc dp HC Htok Hmc Hoff Hover H16 Hfit.
  destruct (decode_match_spec C pre rest d tok off mc dp HC Htok Hmc Hoff H16 Hfit)
    as (d' & Hrun & Hlen & Htake).
  exists d'. split; [exact Hrun|].
  unfold minMatchLength in *.
  set (out := take (Z.to_nat dp) d) in *.
  assert (Hout : len out = dp) by (unfold out; apply len_take; lia).
  set (R := lz_extend (Z.to_nat (mc + 4)) out off) in *.
  assert (HlenR : len R = dp + mc + 4)
    by (unfold R; rewrite lz_extend_len; lia).
  assert (Hlook : forall j : nat, (j < Z.to_nat (dp + mc + 4))%nat -> d' !! j = R !! j).
  { intros j Hj. rewrite <- Htake. symmetry. now apply lookup_take_lt. }
  split.
  - pose proof (lz_extend_prefix (Z.to_nat (mc + 4)) out off) as Hpre.
    fold R in Hpre. rewrite <- Htake in Hpre. rewrite take_take in Hpre.
    replace (length out `min` Z.to_nat (dp + mc + 4))%nat with (Z.to_nat dp) in Hpre
      by (unfold len in Hout; lia).
    exact Hpre.
  - intros i Hi. rewrite !Hlook by lia. unfold R. rewrite <- Hout.
    apply lz_extend_lookup; lia.
Qed.

(** ** The streaming writer *)

Lemma u32_small (n : Z) : 0 <= n < 4294967296 -> u32 n = n.
Proof. intros H. unfold u32. now apply Z.mod_small. Qed.

(** The record of a block of at most 4 MiB: a length prefix [n], then
    [n] bytes that decompress to the block. *)
Lemma block_record_spec (table : list Z) (block d : list byte) :
  len table = hashSize -> len block <= maxBlockSize -> block <> [] ->
  len block <= len d ->
  exists n payload d',
    block_record table block = le_put_uint32 n ++ payload
    /\ len payload = n
    /\ 0 < n <= len block + len block / 255 + 2
    /\ decompressBlock payload d = Ok (len block, None, d')
    /\ take (Z.to_nat (len block)) d' = block.
Proof.
  intros Htab Hsize Hne Hd. pose proof (len_nonneg block) as Hnn.
  unfold maxBlockSize in Hsize.
  set (worst := len block + Z.quot (len block) 255 + 16).
  assert (Hq : Z.quot (len block) 255 = len block / 255)
    by (apply Z.quot_div_nonneg; lia).
  assert (Hworst : 0 <= worst) by (unfold worst; rewrite Hq; dlia).
  destruct (block_roundtrip block (replicate (Z.to_nat worst) x00) d table)
    as (n & c & d' & Hc & Hn & Hlen & Hpos & Hdec & _ & Htake);
    try assumption.
  { unfold emptySlot. lia. }
  { rewrite len_replicate. unfold worst. rewrite Hq. lia. }
  specialize (Hpos Hne).
  rewrite len_replicate in Hlen.
  exists n, (take (Z.to_nat n) c), d'.
  unfold block_record. fold worst. rewrite Hc.
  rewrite u32_small by dlia.
  split; [reflexivity|]. split.
  { apply len_take. unfold worst in *. rewrite Hq in *. dlia. }
  split; [lia|]. split; assumption.
Qed.

Lemma with_dst_with_dst (w : Writer) (a b : sink) :
  with_dst (with_dst w a) b = with_dst w b.
Proof. reflexivity. Qed.

(** One [Write] call cuts its own argument into blocks: the loop appends
    one record per block of [blocks_of], and consumes all of [p]. *)
Lemma write_loop_spec (fuel : nat) :
  forall (w : Writer) (p : list byte) (total : Z),
    len (w_hashTable w) = hashSize ->
    0 < w_blockSize w <= maxBlockSize ->
    len p < Z.of_nat fuel ->
    write_loop fuel w p total
    = Ok (with_dst w
            (w_dst w ++ concat (map (block_record (w_hashTable w))
                                    (blocks_of fuel (w_blockSize w) p))),
          total + len p, None).
Proof.
  induction fuel as [|fuel IH]; intros w p total Htab Hbs Hfuel.
  - pose proof (len_nonneg p). lia.
  - cbn [write_loop blocks_of]. pose proof (len_nonneg p) as Hnn.
    destruct (Z.ltb_spec 0 (len p)) as [Hpos|Hzero].
    + set (cs := if len p <? w_blockSize w then len p else w_blockSize w).
      assert (Hcs : 0 < cs <= len p /\ cs <= w_blockSize w).
      { unfold cs. destruct (Z.ltb_spec (len p) (w_blockSize w)); lia. }
      set (chunk := take (Z.to_nat cs) p).
      assert (Hchunk : len chunk = cs) by (unfold chunk; apply len_take; lia).
      assert (Hq : Z.quot cs 255 = cs / 255) by (apply Z.quot_div_nonneg; lia).
      unfold make_bytes.
      destruct (Z.ltb_spec (cs + Z.quot cs 255 + 16) 0); [rewrite Hq in *; dlia|].
      bstep. rewrite slice_prefix_ok by lia. fold chunk. bstep.
      assert (Hne : chunk <> []).
      { intros E. rewrite E, len_nil in Hchunk. lia. }
      assert (Hblock : len chunk <= maxBlockSize) by lia.
      unfold maxBlockSize in Hbs, Hblock.
      destruct (block_roundtrip chunk
                  (replicate (Z.to_nat (cs + Z.quot cs 255 + 16)) x00)
                  chunk (w_hashTable w))
        as (n & c & d' & Hc & Hn & Hlen & Hnpos & _);
        try assumption; try lia.
      { unfold emptySlot. lia. }
      { rewrite len_replicate, Hchunk, Hq. dlia. }
      rewrite Hc. bstep.
      rewrite len_replicate in Hlen.
      rewrite slice_prefix_ok by (rewrite Hq, Hchunk in *; dlia). bstep.
      rewrite slice_from_ok by lia. bstep.
      rewrite IH; cbn [w_hashTable w_blockSize with_dst w_dst];
        try assumption; try (rewrite len_drop; lia).
      rewrite with_dst_with_dst.
      replace (total + cs + len (drop (Z.to_nat cs) p)) with (total + len p)
        by (rewrite len_drop; lia).
      cbn [map concat]. unfold block_record at 2. rewrite Hchunk, Hc.
      rewrite <- !app_assoc. reflexivity.
    + cbn [map concat]. rewrite app_nil_r.
      replace (total + len p) with total by lia. now destruct w.
Qed.

Lemma write_header_once_fields (w : Writer) :
  w_hashTable (write_header_once w) = w_hashTable w
  /\ w_blockSize (write_header_once w) = w_blockSize w
  /\ w_headerWritten (write_header_once w) = true
  /\ w_dst (write_header_once w)
     = if w_headerWritten w then w_dst w else WriteFrameHeader (w_dst w).
Proof.
  unfold write_header_once. destruct (w_headerWritten w) eqn:E; cbn; auto.
Qed.

Theorem Writer_Write_spec (w : Writer) (p : list byte) :
  len (w_hashTable w) = hashSize ->
  0 < w_blockSize w <= maxBlockSize ->
  Writer_Write w p
  = Ok (with_dst (write_header_once w)
          (w_dst (write_header_once w)
           ++ concat (map (block_record (w_hashTable w))
                          (blocks_of (S (length p)) (w_blockSize w) p))),
        len p, None).
Proof.
  intros Htab Hbs. unfold Writer_Write.
  destruct (write_header_once_fields w) as (Ht & Hb & _ & _).
  rewrite write_loop_spec; rewrite ?Ht, ?Hb; try assumption.
  - reflexivity.
  - unfold len. lia.
Qed.

Lemma blocks_of_full (fuel : nat) (bs : Z) (p : list byte) :
  0 < bs -> bs <= len p ->
  blocks_of (S fuel) bs p
  = take (Z.to_nat bs) p :: blocks_of fuel bs (drop (Z.to_nat bs) p).
Proof.
  intros Hbs Hp. cbn [blocks_of].
  destruct (Z.ltb_spec 0 (len p)); [|lia].
  destruct (Z.ltb_spec (len p) bs); [lia|]. reflexivity.
Qed.

Lemma blocks_of_last (fuel : nat) (bs : Z) (p : list byte) :
  0 < len p -> len p < bs -> blocks_of (S (S fuel)) bs p = [p].
Proof.
  intros Hp Hbs. cbn [blocks_of].
  destruct (Z.ltb_spec 0 (len p)); [|lia].
  destruct (Z.ltb_spec (len p) bs); [|lia].
  unfold len. rewrite Nat2Z.id, firstn_all, drop_all. cbn [length].
  reflexivity.
Qed.

Lemma NewWriter_table (dst : sink) : len (w_hashTable (NewWriter dst)) = hashSize.
Proof.
  cbn [NewWriter w_hashTable]. rewrite len_replicate.
  apply Z2Nat.id. vm_compute. discriminate.
Qed.

Lemma Writer_Close_dst (w : Writer) :
  w_dst (Writer_Close w)
  = (if w_headerWritten w then w_dst w else WriteFrameHeader (w_dst w))
    ++ [x00; x00; x00; x00].
Proof.
  unfold Writer_Close, write_header_once.
  destruct (w_headerWritten w); reflexivity.
Qed.

(** C3, as the code has it: a 10 MiB input handed to a fresh writer in
    one [Write] call, then [Close], gives the header, exactly three
    block records covering the first 4 MiB, the next 4 MiB and the last
    2 MiB of the input, and the end-mark; each record is a length prefix
    and a payload of that length which decompresses to its block. *)
Theorem ten_mib_single_write (X : list byte) :
  len X = 10 * 1024 * 1024 -> three_block_frame X.
Proof.
  intros HX. unfold three_block_frame.
  set (X1 := take (Z.to_nat defaultBlockSize) X).
  set (X2 := take (Z.to_nat defaultBlockSize) (drop (Z.to_nat defaultBlockSize) X)).
  set (X3 := drop (Z.to_nat defaultBlockSize) (drop (Z.to_nat defaultBlockSize) X)).
  set (t := w_hashTable (NewWriter [])).
  assert (Hbs : defaultBlockSize = 4194304) by reflexivity.
  assert (H1 : len X1 = 4194304) by (unfold X1; rewrite len_take; lia).
  assert (Hd1 : len (drop (Z.to_nat defaultBlockSize) X) = 6291456)
    by (rewrite len_drop; lia).
  assert (H2 : len X2 = 4194304) by (unfold X2; rewrite len_take; lia).
  assert (H3 : len X3 = 2097152) by (unfold X3; rewrite len_drop; lia).
  split.
  - unfold frame_of_writes. cbn [write_all].
    rewrite Writer_Write_spec
      by (rewrite ?NewWriter_table; cbn; unfold maxBlockSize; lia).
    bstep. cbn [write_all]. bstep. f_equal.
    rewrite Writer_Close_dst.
    change (w_blockSize (NewWriter [])) with defaultBlockSize.
    cbn [with_dst w_dst w_headerWritten].
    destruct (write_header_once_fields (NewWriter [])) as (_ & _ & -> & ->).
    cbn [NewWriter w_headerWritten w_dst]. fold t.
    replace (S (length X)) with (S (S (S (S (length X - 3)))))
      by (unfold len in HX; lia).
    rewrite blocks_of_full by lia. fold X1.
    rewrite blocks_of_full by lia. fold X2.
    fold X3. rewrite blocks_of_last by lia.
    cbn [map concat]. rewrite app_nil_r, <- !app_assoc. reflexivity.
  - split.
    { unfold X1, X2, X3. now rewrite !take_drop. }
    split; [exact H1|]. split; [exact H2|]. split; [exact H3|].
    intros B HB.
    assert (HBlen : 0 < len B <= 4194304).
    { cbn [In] in HB. destruct HB as [<-|[<-|[<-|[]]]]; lia. }
    destruct (block_record_spec t B (replicate (Z.to_nat defaultBlockSize) x00))
      as (n & payload & d' & Hrec & Hlen & Hn & Hdec & Htake).
    + apply NewWriter_table.
    + unfold maxBlockSize. lia.
    + intros E. apply (f_equal len) in E. rewrite len_nil in E. lia.
    + rewrite len_replicate. lia.
    + exists n, payload, d'. repeat split; try assumption; lia.
Qed.

(** C3, counterexample: two one-byte writes give two block records, one
    two-byte write gives one; the frame depends on how the input is cut
    into [Write] calls. *)
Lemma writes_not_accumulated :
  frame_of_writes [[x61]; [x62]] <> frame_of_writes [concat [[x61]; [x62]]].
Proof. vm_compute. discriminate. Qed.

(** ** The streaming reader *)

Lemma le_uint32_cons (a b c d : byte) (l : list byte) :
  le_uint32 (a :: b :: c :: d :: l) = Ok (le32_of a b c d).
Proof. reflexivity. Qed.

Lemma byte_part_bit (n k i : Z) :
  0 <= k -> 0 <= i ->
  Z.testbit (Z.shiftl (Z.shiftr n k mod 2 ^ 8) k) i
  = (k <=? i) && (i <? k + 8) && Z.testbit n i.
Proof.
  intros Hk Hi. rewrite Z.shiftl_spec by lia.
  destruct (Z.leb_spec k i); cbn [andb].
  - rewrite Z.testbit_mod_pow2, Z.shiftr_spec by lia.
    replace (i - k + k) with i by lia.
    destruct (Z.ltb_spec (i - k) 8); destruct (Z.ltb_spec i (k + 8));
      try lia; reflexivity.
  - apply Z.testbit_neg_r. lia.
Qed.

Lemma le32_roundtrip (n : Z) :
  0 <= n < 4294967296 -> le_uint32 (le_put_uint32 n) = Ok n.
Proof.
  intros H. unfold le_put_uint32. rewrite le_uint32_cons. unfold le32_of.
  f_equal. rewrite !Z_of_byte_of_Z. change 256 with (2 ^ 8).
  apply Z.bits_inj'. intros i Hi.
  rewrite !Z.lor_spec, !byte_part_bit, Z.testbit_mod_pow2 by lia.
  destruct (Z.ltb_spec i 8); destruct (Z.leb_spec 8 i);
    destruct (Z.ltb_spec i (8 + 8)); destruct (Z.leb_spec 16 i);
    destruct (Z.ltb_spec i (16 + 8)); destruct (Z.leb_spec 24 i);
    destruct (Z.ltb_spec i (24 + 8)); try lia; cbn [andb orb];
    rewrite ?orb_false_r; try reflexivity.
  symmetry. destruct (Z.eq_dec n 0) as [->|Hne]; [apply Z.testbit_0_l|].
  apply Z.bits_above_log2; [lia|].
  apply Z.lt_le_trans with 32; [|lia].
  apply Z.log2_lt_pow2; [lia|]. simpl. lia.
Qed.

Lemma ReadFull_app (a rest : list byte) (n : Z) :
  n = len a -> 0 < n -> ReadFull (a ++ rest) n = (rest, inl a).
Proof.
  intros -> Hpos. unfold ReadFull. pose proof (len_nonneg rest).
  destruct (Z.leb_spec (len a) 0); [lia|].
  destruct (Z.eqb_spec (len (a ++ rest)) 0); [rewrite len_app in *; lia|].
  destruct (Z.ltb_spec (len (a ++ rest)) (len a)); [rewrite len_app in *; lia|].
  unfold len. rewrite Nat2Z.id, drop_app_length, take_app_length. reflexivity.
Qed.

Lemma ReadFrameHeader_writer (rest : list byte) :
  ReadFrameHeader (WriteFrameHeader [] ++ rest) = Ok (rest, inl writer_header).
Proof.
  unfold ReadFrameHeader. rewrite ReadFull_app by (vm_compute; reflexivity).
  reflexivity.
Qed.

Lemma check_header_writer (r : Reader) (rest : list byte) :
  r_headerRead r = false ->
  r_src r = WriteFrameHeader [] ++ rest ->
  check_header r = Ok (header_read r rest, None).
Proof.
  intros Hh Hs. unfold check_header. rewrite Hh, Hs, ReadFrameHeader_writer.
  reflexivity.
Qed.

(** The loop of [Read] at the end-mark. *)
Lemma read_loop_end_mark (fuel : nat) (r : Reader) (p rest : list byte)
      (total : Z) :
  total < len p -> r_eof r = false ->
  r_src r = le_put_uint32 endMark ++ rest ->
  read_loop (S fuel) r p total = Ok (set_eof (set_src r rest), p, total, None).
Proof.
  intros Hp He Hs. cbn [read_loop].
  destruct (Z.ltb_spec total (len p)); [|lia]. rewrite He. cbn [negb andb].
  rewrite Hs, ReadFull_app by (vm_compute; reflexivity).
  rewrite le32_roundtrip by (unfold endMark; lia).
  reflexivity.
Qed.

(** The loop of [Read] at a block record whose length prefix is beyond
    the scratch buffer. *)
Lemma read_loop_too_large (fuel : nat) (r : Reader) (p rest : list byte)
      (total n : Z) :
  total < len p -> r_eof r = false ->
  r_src r = le_put_uint32 n ++ rest ->
  len (r_buffer r) < n < 2147483648 ->
  read_loop (S fuel) r p total
  = Ok (set_src r rest, p, total, Some ErrBlockTooLarge).
Proof.
  intros Hp He Hs Hn. cbn [read_loop]. pose proof (len_nonneg (r_buffer r)).
  destruct (Z.ltb_spec total (len p)); [|lia]. rewrite He. cbn [negb andb].
  rewrite Hs, ReadFull_app by (vm_compute; reflexivity).
  rewrite le32_roundtrip by lia. bstep.
  destruct (Z.eqb_spec n 0); [lia|].
  assert (Hbit : Z.land n 2147483648 = 0).
  { change 2147483648 with (2 ^ 31). apply Z.bits_inj'. intros i Hi.
    rewrite Z.land_spec, Z.bits_0, Z.pow2_bits_eqb by lia.
    destruct (Z.eqb_spec 31 i) as [<-|]; [|apply andb_false_r].
    rewrite andb_true_r. apply Z.bits_above_log2; [lia|].
    apply Z.log2_lt_pow2; [lia|]. change (2 ^ 31) with 2147483648. lia. }
  rewrite Hbit. cbn [Z.eqb negb r_buffer set_src].
  rewrite u32_small by lia.
  destruct (Z.ltb_spec (len (r_buffer r)) n); [reflexivity|lia].
Qed.

(** What the header check of [Read] requires of a decoded header; the
    content-checksum flag is not among it. *)
Lemma check_header_accepts (r : Reader) (src : source) (h : DecodedFrameHeader) :
  r_headerRead r = false ->
  ReadFrameHeader (r_src r) = Ok (src, inl h) ->
  Version h = 1 -> BlocksIndependentFlag h = true ->
  BlocksChecksumFlag h = false -> ContentSizeFlag h = false ->
  DictIDFlag h = false -> ContentSize h <= 0 -> DictID h <= 0 ->
  check_header r = Ok (header_read r src, None).
Proof.
  intros Hh Hr Hv Hi Hb Hc Hd Hcs Hdi. unfold check_header.
  rewrite Hh, Hr. bstep. rewrite Hv, Hi, Hb, Hc, Hd. cbn [Z.eqb Pos.eqb negb].
  destruct (Z.ltb_spec 0 (ContentSize h)); [lia|].
  destruct (Z.ltb_spec 0 (DictID h)); [lia|]. reflexivity.
Qed.

(** A fresh reader on a frame that is a header [check_header] accepts
    and then the end-mark: the first [Read] into a non-empty buffer
    delivers nothing and no error, every later [Read] gives [io.EOF]. *)
Lemma read_header_then_end_mark (frame hdr : list byte) (h : DecodedFrameHeader)
      (p : list byte) :
  frame = hdr ++ le_put_uint32 endMark ->
  ReadFrameHeader frame = Ok (le_put_uint32 endMark, inl h) ->
  Version h = 1 -> BlocksIndependentFlag h = true ->
  BlocksChecksumFlag h = false -> ContentSizeFlag h = false ->
  DictIDFlag h = false -> ContentSize h <= 0 -> DictID h <= 0 ->
  0 < len p ->
  exists r, Reader_Read (NewReader frame) p = Ok (r, p, 0, None)
    /\ r_eof r = true
    /\ forall q, Reader_Read r q = Ok (r, q, 0, Some EOF).
Proof.
  intros Hf Hr Hv Hi Hb Hc Hd Hcs Hdi Hp.
  set (r1 := header_read (NewReader frame) (le_put_uint32 endMark)).
  exists (set_eof (set_src r1 [])).
  split; [|split; [reflexivity|intros q; reflexivity]].
  unfold Reader_Read. cbn [NewReader r_eof].
  rewrite (check_header_accepts _ (le_put_uint32 endMark) h) by (assumption || reflexivity).
  bstep. fold r1.
  assert (Hdrain : drain_leftover r1 p = Ok (r1, p, 0, false)) by reflexivity.
  rewrite Hdrain. bstep.
  apply (read_loop_end_mark _ r1 p []); [lia|reflexivity|].
  cbn [r1 header_read r_src]. now rewrite app_nil_r.
Qed.

(** C9: compressing the empty input gives the 11 bytes of header and
    end-mark, because [Close] writes the header when no [Write] did and
    always writes the end-mark; a reader of these 11 bytes delivers no
    byte and then the end-of-stream error. *)
Theorem empty_input_frame :
  CompressStream [] [] = Ok (frame_empty, None)
  /\ len frame_empty = 11
  /\ frame_empty = WriteFrameHeader [] ++ le_put_uint32 endMark
  /\ (forall w : Writer,
        w_dst (Writer_Close w)
        = (if w_headerWritten w then w_dst w else WriteFrameHeader (w_dst w))
          ++ le_put_uint32 endMark)
  /\ (forall p : list byte, 0 < len p ->
        exists r, Reader_Read (NewReader frame_empty) p = Ok (r, p, 0, None)
          /\ r_eof r = true
          /\ forall q, Reader_Read r q = Ok (r, q, 0, Some EOF))
  /\ DecompressStream frame_empty [] = Ok ([], None).
Proof.
  split; [vm_compute; reflexivity|]. split; [reflexivity|].
  split; [vm_compute; reflexivity|]. split; [exact Writer_Close_dst|].
  split; [|vm_compute; reflexivity].
  intros p Hp.
  apply (read_header_then_end_mark frame_empty (WriteFrameHeader []) writer_header);
    try reflexivity; try (cbn; lia); try exact Hp.
Qed.

(** C2, at the failing input: the FLG byte of [frame_content_checksum]
    has the content-checksum bit set (with version 1 and the
    blocks-independent bit), its header checksum byte is right, and the
    first [Read] of a fresh reader does not fail: it returns no error,
    takes the end-mark, and the stream decompresses to the empty
    output. *)
Theorem content_checksum_flag_accepted :
  (forall flg, frame_content_checksum !! 4%nat = Some flg ->
     flag (Z_of_byte flg) 0x04 = true
     /\ Z.land (Z.shiftr (Z_of_byte flg) 6) 0x03 = 1
     /\ flag (Z_of_byte flg) 0x20 = true)
  /\ getHeaderChecksum [x64; x70] = xb9
  /\ (forall p : list byte, 0 < len p ->
        exists r, Reader_Read (NewReader frame_content_checksum) p
                  = Ok (r, p, 0, None)
          /\ r_eof r = true)
  /\ DecompressStream frame_content_checksum [] = Ok ([], None).
Proof.
  split. { intros flg [= <-]. repeat split. }
  split; [vm_compute; reflexivity|].
  split; [|vm_compute; reflexivity].
  intros p Hp.
  destruct (read_header_then_end_mark frame_content_checksum
              [x04; x22; x4d; x18; x64; x70; xb9]
              {| Magic := magic; Version := 1;
                 BlocksIndependentFlag := true; BlocksChecksumFlag := false;
                 ContentSizeFlag := false; ContentChecksumFlag := true;
                 DictIDFlag := false; ContentSize := 0; DictID := 0;
                 BlockMaxSize := 4194304 |} p)
    as (r & Hr & He & _); try reflexivity; try (cbn; lia); try exact Hp.
  exists r. auto.
Qed.

(** The three sibling flags are refused by the same check. *)
Lemma sibling_flags_rejected (r : Reader) :
  r_headerRead r = false ->
  (r_src r = [x04; x22; x4d; x18; x70; x70; x00] ->
   check_header r
   = Ok (set_src r [], Some (ErrMsg "blocks checksum flag is not supported")))
  /\ (r_src r = [x04; x22; x4d; x18; x68; x70; x00;
                 x00; x00; x00; x00; x00; x00; x00; x00] ->
      check_header r
      = Ok (set_src r [], Some (ErrMsg "content size flag is not supported")))
  /\ (r_src r = [x04; x22; x4d; x18; x61; x70; x00; x00; x00; x00; x00] ->
      check_header r
      = Ok (set_src r [], Some (ErrMsg "dict ID flag is not supported"))).
Proof.
  intros Hh. unfold check_header. rewrite Hh.
  repeat split; intros ->; reflexivity.
Qed.

(** ** A block the compressor cannot shorten *)

Lemma marked_byte_val (p : Z) : Z_of_byte (marked_byte p) = marked_val p.
Proof.
  unfold marked_byte, marked_val.
  destruct (p mod 3 =? 0); [reflexivity|].
  destruct (p mod 3 =? 1); rewrite Z_of_byte_of_Z; apply Z.mod_small; dlia.
Qed.

Lemma marked_val_0 p : p mod 3 = 0 -> marked_val p = 255.
Proof. intros H. unfold marked_val. now rewrite H. Qed.
Lemma marked_val_1 p : p mod 3 = 1 -> marked_val p = (p / 3 / 255) mod 255.
Proof. intros H. unfold marked_val. now rewrite H. Qed.
Lemma marked_val_2 p : p mod 3 = 2 -> marked_val p = (p / 3) mod 255.
Proof. intros H. unfold marked_val. now rewrite H. Qed.
Lemma marked_val_lt p : p mod 3 <> 0 -> marked_val p < 255.
Proof.
  intros H. unfold marked_val. destruct (Z.eqb_spec (p mod 3) 0); [contradiction|].
  destruct (p mod 3 =? 1); dlia.
Qed.

Lemma marked_windows_differ (pos ref : Z) :
  0 <= ref < pos -> pos - ref <= 65535 ->
  (forall k, 0 <= k < 4 -> marked_val (pos + k) = marked_val (ref + k)) ->
  False.
Proof.
  intros Hr Hd H.
  pose proof (H 0 ltac:(lia)) as H0. pose proof (H 1 ltac:(lia)) as H1.
  pose proof (H 2 ltac:(lia)) as H2. pose proof (H 3 ltac:(lia)) as H3.
  clear H. rewrite !Z.add_0_r in H0.
  assert (Ha : pos mod 3 = 0 \/ pos mod 3 = 1 \/ pos mod 3 = 2) by dlia.
  assert (Hb : ref mod 3 = 0 \/ ref mod 3 = 1 \/ ref mod 3 = 2) by dlia.
  destruct Ha as [Ha|[Ha|Ha]]; destruct Hb as [Hb|[Hb|Hb]].
  - (* 0 0 *)
    rewrite (marked_val_1 (pos + 1)), (marked_val_1 (ref + 1)) in H1 by dlia.
    rewrite (marked_val_2 (pos + 2)), (marked_val_2 (ref + 2)) in H2 by dlia.
    dlia.
  - rewrite (marked_val_0 pos) in H0 by dlia.
    pose proof (marked_val_lt ref ltac:(dlia)). lia.
  - rewrite (marked_val_0 pos) in H0 by dlia.
    pose proof (marked_val_lt ref ltac:(dlia)). lia.
  - rewrite (marked_val_0 ref) in H0 by dlia.
    pose proof (marked_val_lt pos ltac:(dlia)). lia.
  - rewrite (marked_val_1 pos), (marked_val_1 ref) in H0 by dlia.
    rewrite (marked_val_2 (pos + 1)), (marked_val_2 (ref + 1)) in H1 by dlia.
    dlia.
  - rewrite (marked_val_0 (ref + 1)) in H1 by dlia.
    pose proof (marked_val_lt (pos + 1) ltac:(dlia)). lia.
  - rewrite (marked_val_0 ref) in H0 by dlia.
    pose proof (marked_val_lt pos ltac:(dlia)). lia.
  - rewrite (marked_val_0 (pos + 1)) in H1 by dlia.
    pose proof (marked_val_lt (ref + 1) ltac:(dlia)). lia.
  - rewrite (marked_val_1 (pos + 2)), (marked_val_1 (ref + 2)) in H2 by dlia.
    rewrite (marked_val_2 (pos + 3)), (marked_val_2 (ref + 3)) in H3 by dlia.
    dlia.
Qed.

Lemma marked_block_len (n : Z) : 0 <= n -> len (marked_block n) = n.
Proof.
  intros H. unfold marked_block, len. rewrite length_map, length_seq. lia.
Qed.

Lemma marked_block_lookup (n i : Z) :
  0 <= i < n -> marked_block n !! Z.to_nat i = Some (marked_byte i).
Proof.
  intros H. unfold marked_block. rewrite list_lookup_fmap.
  rewrite lookup_seq_lt by lia. cbn. f_equal. f_equal. lia.
Qed.

Lemma marked_block_no_repeat (n : Z) : no_repeat (marked_block n).
Proof.
  intros pos ref Hr Hfit Hoff. unfold maxOffset in Hoff.
  assert (Hn : 0 <= n).
  { destruct (Z.le_gt_cases 0 n); [assumption|].
    unfold marked_block in Hfit. replace (Z.to_nat n) with 0%nat in Hfit by lia.
    unfold len in Hfit. cbn in Hfit. lia. }
  rewrite marked_block_len in Hfit by lia.
  assert (Hdiff : forall k, 0 <= k < 4 ->
            marked_val (pos + k) <> marked_val (ref + k) ->
            marked_block n !! Z.to_nat (pos + k)
            <> marked_block n !! Z.to_nat (ref + k)).
  { intros k Hk Hne. rewrite !marked_block_lookup by lia.
    intros [= E]. apply Hne. now rewrite <- !marked_byte_val, E. }
  destruct (Z.eq_dec (marked_val (pos + 0)) (marked_val (ref + 0))) as [E0|N0];
    [|exists 0; split; [lia|apply Hdiff; [lia|exact N0]]].
  destruct (Z.eq_dec (marked_val (pos + 1)) (marked_val (ref + 1))) as [E1|N1];
    [|exists 1; split; [lia|apply Hdiff; [lia|exact N1]]].
  destruct (Z.eq_dec (marked_val (pos + 2)) (marked_val (ref + 2))) as [E2|N2];
    [|exists 2; split; [lia|apply Hdiff; [lia|exact N2]]].
  destruct (Z.eq_dec (marked_val (pos + 3)) (marked_val (ref + 3))) as [E3|N3];
    [|exists 3; split; [lia|apply Hdiff; [lia|exact N3]]].
  exfalso. apply (marked_windows_differ pos ref); try lia.
  intros k Hk.
  assert (Hc : k = 0 \/ k = 1 \/ k = 2 \/ k = 3) by lia.
  destruct Hc as [Hc|[Hc|[Hc|Hc]]]; subst k; assumption.
Qed.

(** On a source without repeated windows the scan loop finds no match:
    it ends with the anchor, the write position and the destination as
    they were. *)
Lemma scan_loop_no_match (src : list byte) (fuel : nat) :
  no_repeat src -> len src < emptySlot ->
  forall st : cstate,
    table_ok (hashTable st) (srcPos st) -> 0 <= srcPos st <= len src ->
    len src - srcPos st < Z.of_nat fuel ->
    exists st', scan_loop fuel src st = Ok (inl st')
      /\ anchor st' = anchor st /\ dstPos st' = dstPos st
      /\ dstBuf st' = dstBuf st.
Proof.
  intros Hnr Hsmall. induction fuel as [|fuel IH]; intros st Htab Hpos Hfuel.
  - lia.
  - cbn [scan_loop].
    destruct (Z.leb_spec (srcPos st) (len src - minMatchLength)) as [Hle|Hgt];
      [|exists st; auto].
    unfold minMatchLength in Hle. unfold scan_body.
    destruct (find_match_spec src (srcPos st) (hashTable st))
      as (table' & r & Hfm & Htab' & Hr); try assumption; try lia.
    rewrite Hfm. bstep. destruct r as [[ref M]|].
    + exfalso. destruct Hr as (Href & Hoff & HM & _ & _ & _ & Heq).
      destruct (Hnr (srcPos st) ref) as (k & Hk & Hne); try lia.
      apply Hne, Heq. unfold minMatchLength in HM. lia.
    + bstep.
      set (st1 := {| srcPos := srcPos st + 1; anchor := anchor st;
                     dstPos := dstPos st; dstBuf := dstBuf st;
                     hashTable := table' |}).
      destruct (IH st1) as (st' & Hrun & Ha & Hd & Hb);
        cbn [st1 srcPos hashTable]; try assumption; try lia.
      exists st'. auto.
Qed.

(** Such a source is emitted as one run of literals. *)
Theorem compressBlock_no_repeat (src dst : list byte) (table : list Z) :
  no_repeat src -> len table = hashSize -> len src < emptySlot ->
  len (encode_last src) <= len dst ->
  compressBlock src dst table
  = Ok (len (encode_last src), None, write_at dst 0 (encode_last src)).
Proof.
  intros Hnr Htab Hsmall Hroom. unfold compressBlock.
  destruct (Z.eqb_spec (len src) 0) as [H0|Hne].
  - apply len_zero_nil in H0. subst src. cbn [encode_last].
    rewrite write_at_nil. reflexivity.
  - pose proof (len_nonneg src).
    assert (Ht : table_ok (hashTable (scan_init dst table))
                          (srcPos (scan_init dst table)))
      by (cbn [scan_init hashTable srcPos]; now apply table_ok_init).
    assert (Hp : 0 <= srcPos (scan_init dst table) <= len src)
      by (cbn [scan_init srcPos]; lia).
    assert (Hf : len src - srcPos (scan_init dst table) < Z.of_nat (S (length src)))
      by (cbn [scan_init srcPos]; unfold len; lia).
    destruct (scan_loop_no_match src (S (length src)) Hnr Hsmall
                (scan_init dst table) Ht Hp Hf)
      as (st & Hrun & Ha & Hd & Hb).
    rewrite Hrun. bstep. cbn [scan_init anchor dstPos dstBuf] in Ha, Hd, Hb.
    pose proof (emit_last_spec src st) as Hlast. cbv zeta in Hlast.
    rewrite Ha, Hd, Hb in Hlast.
    change (drop (Z.to_nat 0) src) with src in Hlast.
    rewrite Hlast by lia. reflexivity.
Qed.

Lemma encode_last_len (lits : list byte) :
  lits <> [] ->
  len (encode_last lits) = 1 + len (opt_ext (len lits)) + len lits.
Proof.
  intros H. destruct lits as [|b l]; [contradiction|]. cbn [encode_last].
  rewrite !len_app, len_cons, len_nil. lia.
Qed.

Lemma make_bytes_ok (n : Z) :
  0 <= n -> make_bytes n = Ok (replicate (Z.to_nat n) x00).
Proof.
  intros H. unfold make_bytes. destruct (Z.ltb_spec n 0); [lia|reflexivity].
Qed.

Lemma NewReader_buffer (src : source) : len (r_buffer (NewReader src)) = maxBlockSize.
Proof.
  cbn [NewReader r_buffer]. rewrite len_replicate. apply Z2Nat.id.
  vm_compute. discriminate.
Qed.

(** A full block without repeated windows, written in one [Write] call:
    its record carries a payload longer than the block, and the reader,
    whose scratch buffer is one block long, refuses the frame. *)
Lemma full_block_not_read_back (X : list byte) :
  no_repeat X -> len X = defaultBlockSize ->
  let payload := encode_last X in
  let frame := WriteFrameHeader []
               ++ le_put_uint32 4210754 ++ payload ++ le_put_uint32 endMark in
  len payload = 4210754
  /\ frame_of_writes [X] = Ok frame
  /\ (forall p : list byte, 0 < len p ->
        exists r, Reader_Read (NewReader frame) p
                  = Ok (r, p, 0, Some ErrBlockTooLarge))
  /\ DecompressStream frame [] = Ok ([], Some ErrBlockTooLarge).
Proof.
  intros Hnr HX payload frame.
  assert (Hbs : defaultBlockSize = 4194304) by reflexivity.
  assert (Hne : X <> []).
  { intros E. rewrite E, len_nil in HX. lia. }
  assert (Hpl : len payload = 4210754).
  { unfold payload. rewrite encode_last_len by exact Hne.
    rewrite opt_ext_len by lia. rewrite HX, Hbs. reflexivity. }
  assert (Hread : forall p : list byte, 0 < len p ->
            Reader_Read (NewReader frame) p
            = Ok (set_src (header_read (NewReader frame)
                             (le_put_uint32 4210754 ++ payload
                              ++ le_put_uint32 endMark))
                    (payload ++ le_put_uint32 endMark),
                  p, 0, Some ErrBlockTooLarge)).
  { intros p Hp. unfold Reader_Read. cbn [NewReader r_eof].
    rewrite (check_header_writer _
               (le_put_uint32 4210754 ++ payload ++ le_put_uint32 endMark))
      by reflexivity.
    bstep.
    set (r1 := header_read (NewReader frame) _).
    assert (Hdrain : drain_leftover r1 p = Ok (r1, p, 0, false)) by reflexivity.
    rewrite Hdrain. bstep.
    apply (read_loop_too_large _ r1 p (payload ++ le_put_uint32 endMark)
             0 4210754); try reflexivity; try lia.
    change (r_buffer r1) with (r_buffer (NewReader frame)).
    rewrite NewReader_buffer. unfold maxBlockSize. lia. }
  split; [exact Hpl|]. split; [|split].
  - unfold frame_of_writes. cbn [write_all].
    rewrite Writer_Write_spec
      by (rewrite ?NewWriter_table; cbn; unfold maxBlockSize; lia).
    bstep. cbn [write_all]. bstep. f_equal.
    rewrite Writer_Close_dst.
    change (w_blockSize (NewWriter [])) with defaultBlockSize.
    cbn [with_dst w_dst w_headerWritten].
    destruct (write_header_once_fields (NewWriter [])) as (_ & _ & -> & ->).
    cbn [NewWriter w_headerWritten w_dst].
    set (t := replicate (Z.to_nat hashSize) 0).
    assert (Ht : len t = hashSize) by (apply (NewWriter_table [])).
    replace (S (length X)) with (S (S (length X - 1)))
      by (unfold len in HX; lia).
    rewrite blocks_of_full by lia.
    rewrite take_ge, drop_ge by (unfold len in HX; lia).
    cbn [blocks_of len length Z.of_nat Z.ltb Z.compare map concat].
    rewrite app_nil_r.
    unfold block_record.
    assert (Hq : Z.quot (len X) 255 = len X / 255)
      by (apply Z.quot_div_nonneg; lia).
    rewrite compressBlock_no_repeat; try assumption.
    + fold payload. rewrite Hpl. rewrite u32_small by lia.
      replace 4210754 with (0 + len payload) at 2 by lia.
      rewrite write_at_take by (rewrite ?len_replicate, ?Hq, ?HX, ?Hbs; dlia).
      unfold frame. cbn [take Z.to_nat app]. rewrite <- !app_assoc. reflexivity.
    + unfold emptySlot. lia.
    + fold payload. rewrite len_replicate, Hq, HX, Hbs. dlia.
  - intros p Hp. eexists. apply Hread. exact Hp.
  - unfold DecompressStream. cbn [Nat.add decompress_loop].
    rewrite make_bytes_ok by (vm_compute; discriminate). bstep.
    rewrite Hread by (rewrite len_replicate; vm_compute; reflexivity).
    bstep. reflexivity.
Qed.

(** C1, at the failing input: the 4 MiB block [marked_block], written in
    one [Write] call and closed, gives a frame whose only block record
    has a length prefix of 4,210,754; the first [Read] of a fresh reader
    fails on it with the block-too-large error and delivers nothing, and
    so does [DecompressStream]. *)
Theorem incompressible_block_not_read_back :
  let X := marked_block defaultBlockSize in
  let payload := encode_last X in
  let frame := WriteFrameHeader []
               ++ le_put_uint32 4210754 ++ payload ++ le_put_uint32 endMark in
  len X = 4 * 1024 * 1024
  /\ len payload = 4210754
  /\ frame_of_writes [X] = Ok frame
  /\ (forall p : list byte, 0 < len p ->
        exists r, Reader_Read (NewReader frame) p
                  = Ok (r, p, 0, Some ErrBlockTooLarge))
  /\ DecompressStream frame [] = Ok ([], Some ErrBlockTooLarge).
Proof.
  intros X payload frame.
  assert (HX : len X = defaultBlockSize)
    by (apply marked_block_len; vm_compute; discriminate).
  split; [exact HX|].
  apply (full_block_not_read_back X); [apply marked_block_no_repeat | exact HX].
Qed.

(** ** The remaining scenarios *)

(** C8: the header [WriteFrameHeader] emits is the seven bytes
    04 22 4D 18 60 70 73: the magic in little-endian order, FLG, BD, and
    the second byte of the xxHash32 digest of [60 70] at seed 0. *)
Theorem frame_header_bytes :
  WriteFrameHeader [] = [x04; x22; x4d; x18; x60; x70; x73]
  /\ le_put_uint32 magic = [x04; x22; x4d; x18]
  /\ byte_of_Z flgByte = x60 /\ byte_of_Z bdType = x70
  /\ getHeaderChecksum [x60; x70]
     = byte_of_Z (Z.land (Z.shiftr (xxHash32_Sum32 0 [x60; x70]) 8) 0xFF)
  /\ Z.land (Z.shiftr (xxHash32_Sum32 0 [x60; x70]) 8) 0xFF = 0x73
  /\ forall w : sink,
       WriteFrameHeader w = w ++ [x04; x22; x4d; x18; x60; x70; x73].
Proof. repeat split; vm_compute; reflexivity. Qed.

(** C4, as the code has it: 256 zero bytes compress to the five bytes
    1F 00 01 00 EC: the token [0x1F] (one literal, match length
    extended), the literal, the offset 1, and the extension byte
    236 = 255 - 4 - 15; and these five bytes decompress to the 256
    zeros. *)
Theorem zero_run_payload :
  (exists d,
     compressBlock (replicate 256 x00) (worst_case_dst 256)
       (w_hashTable (NewWriter []))
     = Ok (5, None, d)
     /\ take 5 d = [x1f; x00; x01; x00; xec])
  /\ encode_block [zero_run_sequence] [] = [x1f; x00; x01; x00; xec]
  /\ forall d : list byte, 256 <= len d ->
       exists d',
         decompressBlock [x1f; x00; x01; x00; xec] d = Ok (256, None, d')
         /\ take 256 d' = replicate 256 x00.
Proof.
  split. { eexists. split; vm_compute; reflexivity. }
  split; [reflexivity|].
  intros d Hd.
  destruct (decompressBlock_encode_block [zero_run_sequence] [] d)
    as (d' & Hdec & _ & Htake).
  - vm_compute. repeat split; discriminate.
  - replace (play [] [zero_run_sequence] ++ []) with (replicate 256 x00)
      by (vm_compute; reflexivity).
    exact Hd.
  - replace (play [] [zero_run_sequence] ++ []) with (replicate 256 x00) in *
      by (vm_compute; reflexivity).
    exists d'. split; [exact Hdec | exact Htake].
Qed.

(** C4, counterexample: the payload for 256 zero bytes does not begin
    with the token [0xF0]. *)
Lemma zero_run_token_not_F0 :
  ~ exists (n : Z) (d rest : list byte),
      compressBlock (replicate 256 x00) (worst_case_dst 256)
        (w_hashTable (NewWriter []))
      = Ok (n, None, d)
      /\ take (Z.to_nat n) d = xf0 :: rest.
Proof.
  intros (n & d & rest & H & Ht). vm_compute in H.
  injection H as <- <-. vm_compute in Ht. discriminate.
Qed.

(** C5, at the failing input: for a source of 24 zero bytes and a
    destination of 4 bytes the bounds check passes (token, one literal
    and the offset fit), and the store of the match-length extension
    byte is at index 4: the run panics, it neither returns a count nor
    the block-too-large error.  For 20 distinct bytes and a destination
    of 21 the extension byte of the literal length takes the place of
    the last literal, and the call returns 22 for a buffer of 21. *)
Theorem compressBlock_short_destination :
  compressBlock (replicate 24 x00) (replicate 4 x00) (w_hashTable (NewWriter []))
  = Panic
  /\ exists d,
       compressBlock
         [x01; x02; x03; x04; x05; x06; x07; x08; x09; x0a;
          x0b; x0c; x0d; x0e; x0f; x10; x11; x12; x13; x14]
         (replicate 21 x00) (w_hashTable (NewWriter []))
       = Ok (22, None, d)
       /\ len d = 21.
Proof.
  split; [vm_compute; reflexivity|].
  eexists. split; vm_compute; reflexivity.
Qed.

(** C7, counterexample: the block 10 61 00 00 (one literal, then a zero
    offset) fails in its first sequence with count 1, while nothing was
    decoded before that sequence. *)
Lemma count_includes_literals : ~ count_is_before_failing_sequence.
Proof.
  intros H.
  destruct (H [x10; x61; x00; x00] (replicate 16 x00) 1
              (x61 :: replicate 15 x00))
    as (st & Hreach & _ & _ & Hn); [vm_compute; reflexivity|].
  assert (Hinit : st = {| d_srcPos := 0; d_dstPos := 0;
                          d_dst := replicate 16 x00 |}).
  { clear Hn. induction Hreach as [|st st' _ IH _ Hseq]; [reflexivity|].
    subst st. vm_compute in Hseq. discriminate. }
  subst st. cbn in Hn. discriminate.
Qed.

(** ** Instances *)

Lemma hash_table_positions_behind_witness :
  (forall (i : nat) (e : Z),
      hashTable witness_state !! i = Some e -> e <> emptySlot ->
      0 <= e < srcPos witness_state)
  /\ (forall (table' : list Z) (ref M : Z),
        srcPos witness_state <= len witness_src - minMatchLength ->
        find_match witness_src (srcPos witness_state) (hashTable witness_state)
        = Ok (table', Some (ref, M)) ->
        1 <= srcPos witness_state - ref <= 65535
        /\ 0 <= ref < srcPos witness_state
        /\ srcPos witness_state + M <= len witness_src
        /\ forall k, 0 <= k < M ->
             witness_src !! Z.to_nat (srcPos witness_state + k)
             = witness_src !! Z.to_nat (ref + k)).
Proof.
  apply (hash_table_positions_behind witness_src witness_dst witness_table
           witness_state).
  - vm_compute. discriminate.
  - vm_compute. reflexivity.
  - apply (reach_step _ _ _ (scan_init witness_dst witness_table)).
    + apply reach_init.
    + vm_compute. discriminate.
    + destruct (scan_body_inv witness_src witness_dst
                  (scan_init witness_dst witness_table) [])
        as (st' & seqs' & Hbody & _).
      * constructor;
          [ vm_compute; repeat split; discriminate
          | apply table_ok_init; apply NewWriter_table
          | reflexivity | reflexivity | exact I | reflexivity
          | vm_compute; discriminate ].
      * vm_compute. discriminate.
      * vm_compute. reflexivity.
      * vm_compute. discriminate.
      * unfold witness_state. rewrite Hbody. reflexivity.
Defined.

Lemma ten_mib_single_write_witness :
  len ten_mib_zeros = 10 * 1024 * 1024 /\ three_block_frame ten_mib_zeros.
Proof.
  assert (H : len ten_mib_zeros = 10 * 1024 * 1024).
  { unfold ten_mib_zeros. rewrite len_replicate. apply Z2Nat.id. lia. }
  split; [exact H | apply (ten_mib_single_write ten_mib_zeros H)].
Defined.

Lemma overlap_match_replicates_witness :
  exists d',
    decode_match [x1f; x61; x01; x00; xf0] x1f
      {| d_srcPos := len [x1f; x61]; d_dstPos := 1;
         d_dst := x61 :: replicate 259 x00 |}
    = Ok (inl {| d_srcPos := len [x1f; x61] + 2 + len (opt_ext 255);
                 d_dstPos := 1 + 255 + minMatchLength;
                 d_dst := d' |})
    /\ take (Z.to_nat 1) d' = take (Z.to_nat 1) (x61 :: replicate 259 x00)
    /\ forall i, 0 <= i < 255 + minMatchLength ->
         d' !! Z.to_nat (1 + i) = d' !! Z.to_nat (1 + i - 1).
Proof.
  apply (proj2 overlap_match_replicates [x1f; x61; x01; x00; xf0] [x1f; x61] []
           (x61 :: replicate 259 x00) x1f 1 255 1).
  - reflexivity.
  - reflexivity.
  - lia.
  - lia.
  - vm_compute. reflexivity.
  - lia.
  - vm_compute. discriminate.
Defined.

Lemma corrupted_iff_bad_offset_witness :
  exists st tok st1,
    decode_reach [x10; x61; x00; x00] (replicate 16 x00) st
    /\ d_srcPos st < len [x10; x61; x00; x00]
    /\ decode_literals [x10; x61; x00; x00] st = Ok (inl (tok, st1))
    /\ bad_offset_at [x10; x61; x00; x00] st1
    /\ 1 = d_dstPos st1 /\ x61 :: replicate 15 x00 = d_dst st1
    /\ d_dstPos st <= 1.
Proof.
  apply (proj1 (corrupted_iff_bad_offset [x10; x61; x00; x00]
                  (replicate 16 x00) 1 (x61 :: replicate 15 x00))).
  vm_compute. reflexivity.
Defined.

Lemma empty_input_frame_witness :
  0 < len [x00]
  /\ exists r, Reader_Read (NewReader frame_empty) [x00] = Ok (r, [x00], 0, None)
       /\ r_eof r = true
       /\ forall q, Reader_Read r q = Ok (r, q, 0, Some EOF).
Proof.
  assert (H : 0 < len [x00]) by (vm_compute; reflexivity).
  split; [exact H|].
  exact (proj1 (proj2 (proj2 (proj2 (proj2 empty_input_frame)))) [x00] H).
Defined.

Lemma content_checksum_flag_accepted_witness :
  0 < len [x00]
  /\ exists r, Reader_Read (NewReader frame_content_checksum) [x00]
               = Ok (r, [x00], 0, None)
       /\ r_eof r = true.
Proof.
  assert (H : 0 < len [x00]) by (vm_compute; reflexivity).
  split; [exact H|].
  exact (proj1 (proj2 (proj2 content_checksum_flag_accepted)) [x00] H).
Defined.

Lemma zero_run_payload_witness :
  256 <= len (replicate 256 xff)
  /\ exists d',
       decompressBlock [x1f; x00; x01; x00; xec] (replicate 256 xff)
       = Ok (256, None, d')
       /\ take 256 d' = replicate 256 x00.
Proof.
  assert (H : 256 <= len (replicate 256 xff)) by (vm_compute; discriminate).
  split; [exact H|].
  exact (proj2 (proj2 zero_run_payload) (replicate 256 xff) H).
Defined.

Lemma incompressible_block_not_read_back_witness :
  0 < len [x00]
  /\ exists r,
       Reader_Read
         (NewReader (WriteFrameHeader []
                     ++ le_put_uint32 4210754
                     ++ encode_last (marked_block defaultBlockSize)
                     ++ le_put_uint32 endMark)) [x00]
       = Ok (r, [x00], 0, Some ErrBlockTooLarge).
Proof.
  assert (H : 0 < len [x00]) by (vm_compute; reflexivity).
  split; [exact H|].
  exact (proj1 (proj2 (proj2 (proj2 incompressible_block_not_read_back))) [x00] H).
Defined.
